(** * Minesweeper knowledge base: a shallow embedding of [minesweeper.py]

    The development follows the three classes of the program:
    [Sentence] (a set of cells with a mine count), [Minesweeper] (the board
    that produces the observations) and [MinesweeperAI] (the knowledge store
    with its closure and resolution procedures).

    Python values are modelled as follows.
    - a cell is a pair of integers [(Z * Z)]; nothing in the program keeps a
      cell inside the board, so negative coordinates are cells too;
    - a Python [set] of cells is a [gset (Z * Z)]; [len] is [size] read in [Z];
    - a count is an unbounded integer [Z] (it can become negative);
    - the knowledge list is a [list] of sentence values: no two entries of the
      list are the same object (every sentence is built by the constructor,
      which copies its cell set), so values are enough;
    - a method of the agent is a function from the store to an [outcome]:
      either it returns a value with the store it leaves behind, or it raises
      an exception, again with the store as it is at that moment;
    - a [for] loop over a set runs over [elements] of it; the marking loops,
      the only ones with an effect, are shown not to depend on the order
      ([for_mark_mine], [for_mark_safe]);
    - [apply_knowledge] calls itself; the nesting the interpreter allows is
      an argument of the model, and running out of it is [RecursionError]. *)

From Stdlib Require Import ZArith Lia.
From stdpp Require Import base decidable option list gmap sets fin_sets.

Local Open Scope Z_scope.
Set Warnings "-clear-no-such-hyp".

Abbreviation cell := (Z * Z)%type.

(** [len(s)] for a Python set. *)
Definition len (s : gset cell) : Z := Z.of_nat (size s).

(** [range(a, b)] and [range(n)]. *)
Definition range (a b : Z) : list Z :=
  map (λ k : nat, a + Z.of_nat k) (seq 0 (Z.to_nat (b - a))).

Definition range0 (n : Z) : list Z := range 0 n.

(** ** class Sentence *)
Module Sentence.

Record t : Type := make { cells : gset cell; count : Z }.

#[global] Instance eq_dec : EqDecision t.
Proof. solve_decision. Defined.

(** [__eq__]: same cells and same count. *)
Definition eqb (self other : t) : bool :=
  bool_decide (cells self = cells other) && bool_decide (count self = count other).

Definition known_mines (self : t) : option (gset cell) :=
  if decide (len (cells self) = count self) then Some (cells self) else None.

Definition known_safes (self : t) : option (gset cell) :=
  if decide (count self = 0) then Some (cells self) else None.

Definition mark_mine (self : t) (c : cell) : t :=
  if decide (c ∈ cells self)
  then make (cells self ∖ {[c]}) (count self - 1)
  else self.

Definition mark_safe (self : t) (c : cell) : t :=
  if decide (c ∈ cells self)
  then make (cells self ∖ {[c]}) (count self)
  else self.

End Sentence.

(** ** class Minesweeper: the board that answers the agent's moves *)
Module Minesweeper.

Record t : Type := make { height : Z; width : Z; board : list (list bool) }.

(** [self.board[i][j]], read only under the bounds test of the callers.
    On a board built by the constructor ([wf]: [height] rows of [width]
    entries) the lookup is defined for every cell in bounds ([board_at_wf]);
    elsewhere the model reads [false]. *)
Definition board_at (self : t) (i j : Z) : bool :=
  default false (board self !! Z.to_nat i ≫= λ row, row !! Z.to_nat j).

Definition wf (self : t) : Prop :=
  length (board self) = Z.to_nat (height self) ∧
  Forall (λ row, length row = Z.to_nat (width self)) (board self).

Definition in_bounds (self : t) (i j : Z) : bool :=
  bool_decide (0 ≤ i < height self) && bool_decide (0 ≤ j < width self).

Definition is_mine (self : t) (c : cell) : bool := board_at self c.1 c.2.

Definition nearby_mines (self : t) (c : cell) : Z :=
  foldl (λ count i,
    foldl (λ count j,
      if decide ((i, j) = c) then count
      else if in_bounds self i j
           then (if board_at self i j then count + 1 else count)
           else count)
      count (range (c.2 - 1) (c.2 + 2)))
    0 (range (c.1 - 1) (c.1 + 2)).

(** The cells of the board that hold a mine (the constructor's
    [self.mines]). *)
Definition mine_set (self : t) : gset cell :=
  foldl (λ acc i,
    foldl (λ acc j, if board_at self i j then acc ∪ {[ (i, j) ]} else acc)
      acc (range0 (width self)))
    ∅ (range0 (height self)).

End Minesweeper.

(** ** class MinesweeperAI *)
Module MinesweeperAI.

Record t : Type := make {
  height : Z;
  width : Z;
  moves_made : gset cell;
  mines : gset cell;
  safes : gset cell;
  knowledge : list Sentence.t
}.

Definition init (height width : Z) : t := make height width ∅ ∅ ∅ [].

Definition set_moves_made (m : gset cell) (self : t) : t :=
  make (height self) (width self) m (mines self) (safes self) (knowledge self).
Definition set_mines (m : gset cell) (self : t) : t :=
  make (height self) (width self) (moves_made self) m (safes self) (knowledge self).
Definition set_safes (m : gset cell) (self : t) : t :=
  make (height self) (width self) (moves_made self) (mines self) m (knowledge self).
Definition set_knowledge (k : list Sentence.t) (self : t) : t :=
  make (height self) (width self) (moves_made self) (mines self) (safes self) k.

(** *** Methods as store transformers that may raise *)
Inductive exn : Type := KeyError | ValueError | RecursionError.

Inductive outcome (A : Type) : Type :=
| Return (a : A) (self : t)
| Raise (e : exn) (self : t).
Arguments Return {A} a self.
Arguments Raise {A} e self.

Definition M (A : Type) : Type := t → outcome A.

Definition ret {A} (a : A) : M A := λ self, Return a self.
Definition raise {A} (e : exn) : M A := λ self, Raise e self.
Definition bind {A B} (m : M A) (k : A → M B) : M B :=
  λ self, match m self with
          | Return a self' => k a self'
          | Raise e self' => Raise e self'
          end.
Definition get : M t := λ self, Return self self.
Definition modify (f : t → t) : M unit := λ self, Return tt (f self).

(** The store an outcome leaves behind, raised or not. *)
Definition store_of {A} (o : outcome A) : t :=
  match o with Return _ self => self | Raise _ self => self end.

Declare Scope py_scope.
Delimit Scope py_scope with py.
Notation "x <- m ;; k" := (bind m (λ x, k))
  (at level 100, m at next level, right associativity) : py_scope.
Notation "m ;; k" := (bind m (λ _, k))
  (at level 100, right associativity) : py_scope.
Local Open Scope py_scope.

(** [for x in l: body(x)] *)
Fixpoint for_ {A} (l : list A) (body : A → M unit) : M unit :=
  match l with
  | [] => ret tt
  | x :: l' => body x ;; for_ l' body
  end.

(** [for sentence in self.knowledge] updates every sentence in place:
    a [map] over the list. *)
Definition mark_mine (c : cell) : M unit :=
  modify (λ self, set_mines (mines self ∪ {[c]}) self) ;;
  modify (λ self,
    set_knowledge
      (map (λ sentence,
              if decide (c ∈ Sentence.cells sentence)
              then Sentence.mark_mine sentence c else sentence)
           (knowledge self)) self).

Definition mark_safe (c : cell) : M unit :=
  modify (λ self, set_safes (safes self ∪ {[c]}) self) ;;
  modify (λ self,
    set_knowledge
      (map (λ sentence,
              if decide (c ∈ Sentence.cells sentence)
              then Sentence.mark_safe sentence c else sentence)
           (knowledge self)) self).

Definition in_bounds (self : t) (row col : Z) : bool :=
  bool_decide (0 ≤ row < height self) && bool_decide (0 ≤ col < width self).

(** [set.remove] raises [KeyError] when the element is absent. *)
Definition get_neighbouring_cells (c : cell) : M (gset cell) :=
  self <- get ;;
  let neighbouring_cells :=
    foldl (λ acc row,
      foldl (λ acc col,
        if in_bounds self row col then acc ∪ {[ (row, col) ]} else acc)
        acc (range (c.2 - 1) (c.2 + 2)))
      ∅ (range (c.1 - 1) (c.1 + 2)) in
  if decide (c ∈ neighbouring_cells)
  then ret (neighbouring_cells ∖ {[c]})
  else raise KeyError.

Definition get_hidden_neighbouring_cells (c : cell) : M (gset cell) :=
  neighbouring_cells <- get_neighbouring_cells c ;;
  self <- get ;;
  ret (neighbouring_cells ∖ moves_made self).

(** [list.remove(x)]: drops the first entry equal to [x] under [__eq__];
    [None] stands for the [ValueError] of an absent value. *)
Fixpoint list_remove (x : Sentence.t) (l : list Sentence.t) : option (list Sentence.t) :=
  match l with
  | [] => None
  | y :: l' => if Sentence.eqb y x then Some l' else cons y <$> list_remove x l'
  end.

Definition knowledge_remove (sentence : Sentence.t) : M unit :=
  self <- get ;;
  match list_remove sentence (knowledge self) with
  | Some k => modify (set_knowledge k)
  | None => raise ValueError
  end.

(** The [for sentence in knowledge_copy] loop of [apply_knowledge]; the
    result is [repeat_flag].  The [break] ends the loop. *)
Fixpoint scan (knowledge_copy : list Sentence.t) (repeat_flag : bool) : M bool :=
  match knowledge_copy with
  | [] => ret repeat_flag
  | sentence :: rest =>
      let mine_cells := Sentence.known_mines sentence in
      let safe_cells := Sentence.known_safes sentence in
      if decide (len (Sentence.cells sentence) = 0)
      then knowledge_remove sentence ;; ret true
      else
        repeat_flag <-
          match mine_cells with
          | Some mine_cells => for_ (elements mine_cells) mark_mine ;; ret true
          | None => ret repeat_flag
          end ;;
        repeat_flag <-
          match safe_cells with
          | Some safe_cells => for_ (elements safe_cells) mark_safe ;; ret true
          | None => ret repeat_flag
          end ;;
        scan rest repeat_flag
  end.

(** [depth] is the number of nested calls the interpreter still allows;
    the call that would exceed it raises [RecursionError]. *)
Fixpoint apply_knowledge (depth : nat) : M unit :=
  match depth with
  | O => raise RecursionError
  | S depth' =>
      self <- get ;;
      let knowledge_copy := knowledge self in
      repeat_flag <- scan knowledge_copy false ;;
      if repeat_flag then apply_knowledge depth' else ret tt
  end.

Definition generate_new_knowledge : M (list Sentence.t) :=
  self <- get ;;
  let new_sentences :=
    foldl (λ new_sentences sentence_1,
      foldl (λ new_sentences sentence_2,
        if negb (Sentence.eqb sentence_1 sentence_2)
           && bool_decide (Sentence.cells sentence_1 ⊆ Sentence.cells sentence_2)
        then
          let new_cells := Sentence.cells sentence_2 ∖ Sentence.cells sentence_1 in
          let new_count := Sentence.count sentence_2 - Sentence.count sentence_1 in
          if decide (len new_cells > 0)
          then new_sentences ++ [Sentence.make new_cells new_count]
          else new_sentences
        else new_sentences)
        new_sentences (knowledge self))
      [] (knowledge self) in
  ret new_sentences.

Definition add_knowledge (depth : nat) (c : cell) (count : Z) : M unit :=
  modify (λ self, set_moves_made (moves_made self ∪ {[c]}) self) ;;
  mark_safe c ;;
  cells <- get_hidden_neighbouring_cells c ;;
  (if decide (len cells > 0)
   then modify (λ self, set_knowledge (knowledge self ++ [Sentence.make cells count]) self)
   else ret tt) ;;
  apply_knowledge depth ;;
  new_knowledge <- generate_new_knowledge ;;
  modify (λ self, set_knowledge (knowledge self ++ new_knowledge) self).

(** [set.pop()] and [random.sample(s, 1)[0]] return some element of the
    set; which one is outside the program's control, so the choice is an
    argument: the position [pick] (taken modulo the size) in [elements].
    ([random.sample] is the one of the interpreters that sample from a set;
    from Python 3.11 on it refuses a set with a [TypeError].) *)
Definition choose (pick : nat) (s : gset cell) : option cell :=
  elements s !! (pick `mod` length (elements s))%nat.

Definition make_safe_move (pick : nat) : M (option cell) :=
  self <- get ;;
  let safe_cells := safes self ∖ moves_made self in
  if decide (len safe_cells > 0) then ret (choose pick safe_cells) else ret None.

Definition make_random_move (pick : nat) : M (option cell) :=
  self <- get ;;
  let known_cells := ((∅ ∪ safes self) ∪ mines self) ∪ moves_made self in
  let unknown_cells :=
    foldl (λ acc row,
      foldl (λ acc col, acc ∪ {[ (row, col) ]}) acc (range0 (width self)))
      ∅ (range0 (height self)) in
  let unknown_cells := unknown_cells ∖ known_cells in
  if decide (len unknown_cells > 0) then ret (choose pick unknown_cells) else ret None.

End MinesweeperAI.

Import MinesweeperAI.
Local Open Scope py_scope.

(** * Closed forms of the marking loops *)

(** What [for c in hit: self.mark_mine(c)] does to one sentence. *)
Definition strike_mines (hit : gset cell) (x : Sentence.t) : Sentence.t :=
  Sentence.make (Sentence.cells x ∖ hit)
                (Sentence.count x - len (Sentence.cells x ∩ hit)).

(** What [for c in hit: self.mark_safe(c)] does to one sentence. *)
Definition strike_safes (hit : gset cell) (x : Sentence.t) : Sentence.t :=
  Sentence.make (Sentence.cells x ∖ hit) (Sentence.count x).

Definition mark_mines_all (hit : gset cell) (self : t) : t :=
  set_knowledge (map (strike_mines hit) (knowledge self))
                (set_mines (mines self ∪ hit) self).

Definition mark_safes_all (hit : gset cell) (self : t) : t :=
  set_knowledge (map (strike_safes hit) (knowledge self))
                (set_safes (safes self ∪ hit) self).

(** The effect of the two marking branches of the loop body on the flag and
    the store, for a sentence of the snapshot. *)
Definition fire (x : Sentence.t) (flag : bool) (self : t) : bool * t :=
  let r1 := match Sentence.known_mines x with
            | Some hit => (true, mark_mines_all hit self)
            | None => (flag, self)
            end in
  match Sentence.known_safes x with
  | Some hit => (true, mark_safes_all hit r1.2)
  | None => r1
  end.



(** A sentence on which none of the three tests of the loop body succeeds. *)
Definition informative (x : Sentence.t) : Prop :=
  Sentence.cells x ≠ ∅ ∧ Sentence.count x ≠ 0 ∧ Sentence.count x ≠ len (Sentence.cells x).

(** A store on which a pass changes nothing and asks for no other pass. *)
Definition stable (self : t) : Prop :=
  scan (knowledge self) false self = Return false self.

(** * Vocabulary of the specification *)

(** The subset rule as the specification words it: for every ordered pair
    of distinct entries [(a, b)] of the list (entries at different
    positions) with [a.cells ⊆ b.cells], the candidate
    [(b.cells − a.cells, b.count − a.count)], kept when its cell set is not
    empty. *)
Definition candidate (i : nat) (a : Sentence.t) (j : nat) (b : Sentence.t) : list Sentence.t :=
  if decide (i ≠ j ∧ Sentence.cells a ⊆ Sentence.cells b
             ∧ Sentence.cells b ∖ Sentence.cells a ≠ ∅)
  then [Sentence.make (Sentence.cells b ∖ Sentence.cells a)
                      (Sentence.count b - Sentence.count a)]
  else [].

Definition subset_rule (k : list Sentence.t) : list Sentence.t :=
  concat (imap (λ i a, concat (imap (λ j b, candidate i a j b) k)) k).

(** The pairs [(row, col)] in the order of two nested [for] loops. *)
Definition grid (rows cols : list Z) : list cell :=
  flat_map (λ row, map (λ col, (row, col)) cols) rows.

Definition window (c : cell) : list cell :=
  grid (range (c.1 - 1) (c.1 + 2)) (range (c.2 - 1) (c.2 + 2)).

Definition on_board (height width : Z) (c : cell) : Prop :=
  0 ≤ c.1 < height ∧ 0 ≤ c.2 < width.

(** A sentence is true of a set of mines when its count is the number of
    its cells that are mines. *)
Definition sound_sentence (truth : gset cell) (x : Sentence.t) : Prop :=
  Sentence.count x = len (Sentence.cells x ∩ truth).

(** A store for a board of size [h] x [w] is true of a set of mines. *)
Definition sound (h w : Z) (truth : gset cell) (self : t) : Prop :=
  height self = h ∧ width self = w ∧
  mines self ⊆ truth ∧ safes self ## truth ∧ moves_made self ## truth ∧
  Forall (sound_sentence truth) (knowledge self).

(** No sentence mentions a cell that is already known safe or known mine. *)
Definition clean (self : t) : Prop :=
  ∀ x c, x ∈ knowledge self → c ∈ Sentence.cells x →
         (c ∉ safes self) ∧ (c ∉ mines self).

(** A cell some sentence of the list mentions; a cell whose status the
    store knows. *)
Definition mentioned (self : t) (c : cell) : Prop :=
  ∃ x, x ∈ knowledge self ∧ c ∈ Sentence.cells x.

Definition known (self : t) (c : cell) : Prop := c ∈ safes self ∨ c ∈ mines self.

(** From [self] to [self'] no sentence gains a cell, and a cell that is
    still mentioned has not become known on the way. *)
Definition settles (self self' : t) : Prop :=
  ∀ c, mentioned self' c → mentioned self c ∧ (known self' c → known self c).

(** The public operations of the agent.  [depth] and [pick] are the
    interpreter's share of a call: the nesting it allows and the element a
    set hands out. *)
Inductive op : Type :=
| AddKnowledge (depth : nat) (c : cell) (count : Z)
| MarkMine (c : cell)
| MarkSafe (c : cell)
| MakeSafeMove (pick : nat)
| MakeRandomMove (pick : nat).

(** The store after an operation, whether it returned or raised. *)
Definition exec (o : op) (self : t) : t :=
  match o with
  | AddKnowledge depth c count => store_of (add_knowledge depth c count self)
  | MarkMine c => store_of (mark_mine c self)
  | MarkSafe c => store_of (mark_safe c self)
  | MakeSafeMove pick => store_of (make_safe_move pick self)
  | MakeRandomMove pick => store_of (make_random_move pick self)
  end.

Definition run (ops : list op) (self : t) : t := foldl (λ s o, exec o s) self ops.

(** An operation that tells the agent the truth about the board [g]: an
    observation of a cell without a mine together with the board's count
    for it, a mine marked as mine, a cell without a mine marked as safe. *)
Definition truthful (g : Minesweeper.t) (o : op) : Prop :=
  match o with
  | AddKnowledge _ c count =>
      (c ∉ Minesweeper.mine_set g) ∧ count = Minesweeper.nearby_mines g c
  | MarkMine c => c ∈ Minesweeper.mine_set g
  | MarkSafe c => c ∉ Minesweeper.mine_set g
  | MakeSafeMove _ | MakeRandomMove _ => True
  end.

Inductive reachable (g : Minesweeper.t) : t → Prop :=
| reachable_init :
    reachable g (init (Minesweeper.height g) (Minesweeper.width g))
| reachable_step self o :
    reachable g self → truthful g o → reachable g (exec o self).

(** The cells of the window around [c] that lie on a board of the given
    size ([c] itself among them when it lies on the board). *)
Definition neighbouring (height width : Z) (c : cell) : gset cell :=
  list_to_set (filter (on_board height width) (window c)).

(** The store of [add_knowledge] at the moment the neighbours are asked
    for: the cell is a move made and is marked safe. *)
Definition noted (c : cell) (self : t) : t :=
  make (height self) (width self)
       (moves_made self ∪ {[c]}) (mines self) (safes self ∪ {[c]})
       (map (strike_safes {[c]}) (knowledge self)).

(** The store of [add_knowledge] after its first three steps, for the
    neighbour set [nb] of the observed cell. *)
Definition observed (c : cell) (count : Z) (nb : gset cell) (self : t) : t :=
  let hidden := nb ∖ (moves_made self ∪ {[c]}) in
  make (height self) (width self)
       (moves_made self ∪ {[c]}) (mines self) (safes self ∪ {[c]})
       (map (strike_safes {[c]}) (knowledge self)
        ++ (if decide (hidden = ∅) then [] else [Sentence.make hidden count])).

(** ** class Minesweeper: the constructor and the methods that read its fields

    The record of the class as the constructor fills it.  The random
    numbers are an argument: [randrange(n)] on the draw [r] is [r mod n], and
    raises [ValueError] on an empty range.  The placing loop runs as long as
    there are draws; [Pending] is a loop that has used them all and is still
    running. *)
Module Game.

Record t : Type := make {
  height : Z;
  width : Z;
  mines : gset cell;
  board : list (list bool);
  mines_found : gset cell
}.

(** The part of the record [nearby_mines] reads. *)
Definition as_board (self : t) : Minesweeper.t :=
  Minesweeper.make (height self) (width self) (board self).

Inductive error : Type := ValueError | IndexError.

Inductive outcome : Type :=
| Built (self : t)
| Raised (e : error)
| Pending.

(** [l[i]]: a negative index counts from the end; [None] is [IndexError]. *)
Definition index {A} (l : list A) (i : Z) : option A :=
  if decide (0 ≤ i) then l !! Z.to_nat i
  else if decide (- Z.of_nat (length l) ≤ i)
       then l !! Z.to_nat (Z.of_nat (length l) + i)
       else None.

(** [board[i][j] = True] *)
Definition set_true (board : list (list bool)) (i j : Z) : option (list (list bool)) :=
  match index board i with
  | Some row =>
      match index row j with
      | Some _ => Some (<[Z.to_nat (i `mod` Z.of_nat (length board)) :=
                          <[Z.to_nat (j `mod` Z.of_nat (length row)) := true]> row]> board)
      | None => None
      end
  | None => None
  end.

Definition randrange (n : Z) (r : nat) : option Z :=
  if decide (n ≤ 0) then None else Some (Z.of_nat r `mod` n).

(** The field of the two nested loops that append [False]. *)
Definition blank (height width : Z) : list (list bool) :=
  foldl (λ board _,
    let row := foldl (λ row _, row ++ [false]) [] (range0 width) in
    board ++ [row])
    [] (range0 height).

(** [while len(self.mines) != mines: ...] *)
Fixpoint place (draws : list (nat * nat)) (height width mines : Z)
         (board : list (list bool)) (placed : gset cell) : outcome :=
  if decide (len placed = mines)
  then Built (make height width placed board ∅)
  else
    match draws with
    | [] => Pending
    | (r1, r2) :: draws' =>
        match randrange height r1 with
        | None => Raised ValueError
        | Some i =>
            match randrange width r2 with
            | None => Raised ValueError
            | Some j =>
                match index board i ≫= λ row, index row j with
                | None => Raised IndexError
                | Some true => place draws' height width mines board placed
                | Some false =>
                    match set_true board i j with
                    | Some board' =>
                        place draws' height width mines board' (placed ∪ {[ (i, j) ]})
                    | None => Raised IndexError
                    end
                end
            end
        end
    end.

Definition init (height width mines : Z) (draws : list (nat * nat)) : outcome :=
  place draws height width mines (blank height width) ∅.

(** No bounds test here: the indices are used as they come. *)
Definition is_mine (self : t) (c : cell) : option bool :=
  index (board self) c.1 ≫= λ row, index row c.2.

Definition won (self : t) : bool := bool_decide (mines_found self = mines self).

End Game.

(** From [self] to [self'] the agent has only learnt: same board size and
    moves made, no mine and no safe cell forgotten, no sentence added and no
    cell added to a sentence. *)
Definition advances (self self' : t) : Prop :=
  height self' = height self ∧ width self' = width self ∧
  moves_made self' = moves_made self ∧
  mines self ⊆ mines self' ∧ safes self ⊆ safes self' ∧
  (length (knowledge self') ≤ length (knowledge self))%nat ∧
  ∀ x', x' ∈ knowledge self' →
        ∃ x, x ∈ knowledge self ∧ Sentence.cells x' ⊆ Sentence.cells x.

(** What holds of the store whatever the operations were: every move made
    is known safe, and the sentences mention cells of the board only, none
    of them a move made. *)
Definition tidy (h w : Z) (self : t) : Prop :=
  height self = h ∧ width self = w ∧
  moves_made self ⊆ safes self ∧
  ∀ x c, x ∈ knowledge self → c ∈ Sentence.cells x →
         on_board h w c ∧ c ∉ moves_made self.

(** A store that is true of the mines [{(0,1), (1,1), (2,0)}]. *)
Definition ex_truth : gset cell := {[ (0,1); (1,1); (2,0) ]}.

(** Draws that place three mines on a 3 x 3 field: the second draw hits the
    cell of the first again. *)
Definition ex_draws : list (nat * nat) := [ (4, 7); (1, 4); (0, 0); (8, 2) ]%nat.

Definition ex_game : Game.t :=
  Game.make 3 3 {[ (1,1); (0,0); (2,2) ]}
    [ [true; false; false]; [false; true; false]; [false; false; true] ] ∅.

(** *** Stores and boards used as examples *)

Definition ex_closure : t :=
  make 3 3 ∅ ∅ ∅
    [ Sentence.make {[ (0,1); (1,1) ]} 2;
      Sentence.make {[ (0,1); (1,1); (1,0) ]} 2;
      Sentence.make {[ (2,0); (2,1) ]} 1 ].

Definition ex_closure_done : t :=
  make 3 3 ∅ {[ (0,1); (1,1) ]} {[ (1,0) ]}
    [ Sentence.make {[ (2,0); (2,1) ]} 1 ].

(** A 3 x 3 board with one mine, at [(1, 2)]. *)
Definition ex_board : Minesweeper.t :=
  Minesweeper.make 3 3 [ [false; false; false]; [false; false; true]; [false; false; false] ].

(** The store after the observations [(0,0) -> 0] and [(0,1) -> 1] on
    [ex_board]. *)
Definition ex_two_moves : t :=
  make 3 3 {[ (0,0); (0,1) ]} ∅ {[ (0,0); (0,1); (1,0); (1,1) ]}
    [ Sentence.make {[ (0,2); (1,0); (1,1); (1,2) ]} 1 ].

(** A 3 x 3 board with one mine, in the middle, and the store after the
    observations [(0,0) -> 1] and [(0,1) -> 1] on it. *)
Definition ex_board_mid : Minesweeper.t :=
  Minesweeper.make 3 3 [ [false; false; false]; [false; true; false]; [false; false; false] ].

Definition ex_mid_one : t :=
  make 3 3 {[ (0,0) ]} ∅ {[ (0,0) ]} [ Sentence.make {[ (0,1); (1,0); (1,1) ]} 1 ].

Definition ex_mid_two : t :=
  make 3 3 {[ (0,0); (0,1) ]} ∅ {[ (0,0); (0,1) ]}
    [ Sentence.make {[ (1,0); (1,1) ]} 1;
      Sentence.make {[ (0,2); (1,0); (1,1); (1,2) ]} 1;
      Sentence.make {[ (0,2); (1,2) ]} 0 ].

(** A truthful game on [ex_board_mid] and the store it ends in. *)
Definition ex_mid_ops : list op :=
  [ AddKnowledge 10 (0,0) 1; AddKnowledge 10 (0,1) 1;
    AddKnowledge 10 (1,0) 1; MarkMine (1,1); MakeSafeMove 0 ].

Definition ex_mid_final : t :=
  make 3 3 {[ (0,0); (0,1); (1,0) ]} {[ (1,1) ]}
       {[ (0,0); (0,1); (0,2); (1,0); (1,2); (2,0); (2,1) ]} [].

Lemma t_eq (a b : t) :
  height a = height b → width a = width b → moves_made a = moves_made b →
  mines a = mines b → safes a = safes b → knowledge a = knowledge b → a = b.
Proof. destruct a, b; simpl; intros; subst; reflexivity. Qed.

Lemma sentence_eq (x y : Sentence.t) :
  Sentence.cells x = Sentence.cells y → Sentence.count x = Sentence.count y → x = y.
Proof. destruct x, y; simpl; intros; subst; reflexivity. Qed.

Lemma len_empty_iff (s : gset cell) : len s = 0 ↔ s = ∅.
Proof.
  unfold len. split.
  - intros H. apply leibniz_equiv, size_empty_iff. lia.
  - intros ->. rewrite size_empty. reflexivity.
Qed.

Lemma eqb_spec (x y : Sentence.t) : Sentence.eqb x y = true ↔ x = y.
Proof.
  unfold Sentence.eqb. rewrite andb_true_iff, !bool_decide_eq_true.
  split; [intros [? ?]; by apply sentence_eq | by intros ->].
Qed.

Lemma strike_mines_step (c : cell) (hit : gset cell) (x : Sentence.t) :
  strike_mines hit (if decide (c ∈ Sentence.cells x) then Sentence.mark_mine x c else x)
  = strike_mines ({[c]} ∪ hit) x.
Proof.
  unfold strike_mines, Sentence.mark_mine.
  destruct (decide (c ∈ Sentence.cells x)) as [Hin|Hnin]; cbn [Sentence.cells Sentence.count].
  - apply sentence_eq; cbn [Sentence.cells Sentence.count]; [set_solver|].
    assert (Sentence.cells x ∩ ({[c]} ∪ hit)
            = {[c]} ∪ (Sentence.cells x ∖ {[c]}) ∩ hit) as ->.
    { apply set_eq. intros y. set_unfold. destruct (decide (y = c)); naive_solver. }
    assert (size ({[c]} ∪ (Sentence.cells x ∖ {[c]}) ∩ hit)
            = S (size ((Sentence.cells x ∖ {[c]}) ∩ hit))) as Hsz.
    { rewrite size_union; [|set_solver]. by rewrite size_singleton. }
    unfold len. rewrite Hsz. lia.
  - apply sentence_eq; cbn [Sentence.cells Sentence.count]; [set_solver|].
    assert (Sentence.cells x ∩ ({[c]} ∪ hit) = Sentence.cells x ∩ hit) as -> by set_solver.
    done.
Qed.

Lemma strike_safes_step (c : cell) (hit : gset cell) (x : Sentence.t) :
  strike_safes hit (if decide (c ∈ Sentence.cells x) then Sentence.mark_safe x c else x)
  = strike_safes ({[c]} ∪ hit) x.
Proof.
  unfold strike_safes, Sentence.mark_safe.
  destruct (decide (c ∈ Sentence.cells x)) as [Hin|Hnin]; cbn [Sentence.cells Sentence.count].
  - apply sentence_eq; cbn [Sentence.cells Sentence.count]; [set_solver|done].
  - apply sentence_eq; cbn [Sentence.cells Sentence.count]; [set_solver|done].
Qed.

Lemma strike_mines_empty (x : Sentence.t) : strike_mines ∅ x = x.
Proof.
  unfold strike_mines. apply sentence_eq; cbn [Sentence.cells Sentence.count]; [set_solver|].
  assert (Sentence.cells x ∩ ∅ = (∅ : gset cell)) as -> by set_solver.
  unfold len. rewrite size_empty. lia.
Qed.

Lemma strike_safes_empty (x : Sentence.t) : strike_safes ∅ x = x.
Proof. unfold strike_safes. apply sentence_eq; cbn [Sentence.cells Sentence.count]; [set_solver|done]. Qed.

(** The marking loops depend on the set they run over only, not on the
    order in which the interpreter enumerates it. *)
Lemma for_mark_mine (l : list cell) (self : t) :
  for_ l mark_mine self = Return tt (mark_mines_all (list_to_set l) self).
Proof.
  revert self. induction l as [|c l IH]; intros self; simpl.
  - unfold ret, mark_mines_all. f_equal. apply t_eq; simpl; try done.
    + set_solver.
    + rewrite <- (map_id (knowledge self)) at 1. apply map_ext. intros x.
      by rewrite strike_mines_empty.
  - unfold bind at 1. unfold mark_mine at 1. unfold bind, modify.
    rewrite IH. f_equal. unfold mark_mines_all. apply t_eq; simpl; try done.
    + set_solver.
    + rewrite map_map. apply map_ext. intros x. apply strike_mines_step.
Qed.

Lemma for_mark_safe (l : list cell) (self : t) :
  for_ l mark_safe self = Return tt (mark_safes_all (list_to_set l) self).
Proof.
  revert self. induction l as [|c l IH]; intros self; simpl.
  - unfold ret, mark_safes_all. f_equal. apply t_eq; simpl; try done.
    + set_solver.
    + rewrite <- (map_id (knowledge self)) at 1. apply map_ext. intros x.
      by rewrite strike_safes_empty.
  - unfold bind at 1. unfold mark_safe at 1. unfold bind, modify.
    rewrite IH. f_equal. unfold mark_safes_all. apply t_eq; simpl; try done.
    + set_solver.
    + rewrite map_map. apply map_ext. intros x. apply strike_safes_step.
Qed.

(** * One pass of the closure *)

Lemma scan_cons_empty (x : Sentence.t) rest flag self :
  Sentence.cells x = ∅ →
  scan (x :: rest) flag self =
    match list_remove x (knowledge self) with
    | Some k => Return true (set_knowledge k self)
    | None => Raise ValueError self
    end.
Proof.
  intros Hx. cbn [scan]. rewrite decide_True by (by apply len_empty_iff).
  unfold bind, knowledge_remove, bind, get.
  destruct (list_remove x (knowledge self)); reflexivity.
Qed.

Lemma scan_cons_fire (x : Sentence.t) rest flag self :
  Sentence.cells x ≠ ∅ →
  scan (x :: rest) flag self = scan rest (fire x flag self).1 (fire x flag self).2.
Proof.
  intros Hx. cbn [scan].
  rewrite decide_False by (by rewrite len_empty_iff).
  unfold fire, bind.
  destruct (Sentence.known_mines x) as [hit|];
    destruct (Sentence.known_safes x) as [hit'|];
    rewrite ?for_mark_mine, ?for_mark_safe, ?list_to_set_elements_L;
    cbn [ret fst snd];
    rewrite ?for_mark_mine, ?for_mark_safe, ?list_to_set_elements_L;
    reflexivity.
Qed.

Lemma known_mines_Some (x : Sentence.t) hit :
  Sentence.known_mines x = Some hit →
  hit = Sentence.cells x ∧ len (Sentence.cells x) = Sentence.count x.
Proof. unfold Sentence.known_mines. case_decide; naive_solver. Qed.

Lemma known_mines_None (x : Sentence.t) :
  Sentence.known_mines x = None ↔ Sentence.count x ≠ len (Sentence.cells x).
Proof. unfold Sentence.known_mines. case_decide; naive_solver. Qed.

Lemma known_safes_Some (x : Sentence.t) hit :
  Sentence.known_safes x = Some hit →
  hit = Sentence.cells x ∧ Sentence.count x = 0.
Proof. unfold Sentence.known_safes. case_decide; naive_solver. Qed.

Lemma known_safes_None (x : Sentence.t) :
  Sentence.known_safes x = None ↔ Sentence.count x ≠ 0.
Proof. unfold Sentence.known_safes. case_decide; naive_solver. Qed.







Lemma fire_cases x flag self :
  (fire x flag self = (flag, self) ∧
   Sentence.known_mines x = None ∧ Sentence.known_safes x = None)
  ∨ ((fire x flag self).1 = true ∧
     Forall (λ y, Sentence.cells y ## Sentence.cells x) (knowledge (fire x flag self).2)).
Proof.
  unfold fire.
  destruct (Sentence.known_mines x) as [hit|] eqn:Hm;
    destruct (Sentence.known_safes x) as [hit'|] eqn:Hs; cbn [fst snd];
    [right|right|right|left; done];
    (split; [done|]);
    try (apply known_mines_Some in Hm as [-> _]);
    try (apply known_safes_Some in Hs as [-> _]);
    unfold mark_safes_all, mark_mines_all; cbn [knowledge set_knowledge set_mines set_safes];
    rewrite ?map_map; apply Forall_map, Forall_forall; intros y _;
    cbn [strike_mines strike_safes Sentence.cells]; set_solver.
Qed.








(** A pass that asks for no other pass has changed nothing and has met
    informative sentences only. *)
Lemma scan_false rest :
  ∀ flag self self',
    scan rest flag self = Return false self' →
    flag = false ∧ self' = self ∧ Forall informative rest.
Proof.
  induction rest as [|x rest IH]; intros flag self self' H.
  - cbn in H. unfold ret in H. by inversion H.
  - destruct (decide (Sentence.cells x = ∅)) as [Hx|Hx].
    + rewrite scan_cons_empty in H by done.
      destruct (list_remove x (knowledge self)); discriminate.
    + rewrite scan_cons_fire in H by done.
      apply IH in H as (Hf & -> & Hrest).
      destruct (fire_cases x flag self) as [(Heq & Hm & Hs)|[Ht _]]; [|congruence].
      rewrite Heq in *. cbn [fst snd] in *.
      split; [done|]. split; [done|]. constructor; [|done].
      split; [done|]. split; [by apply known_safes_None|by apply known_mines_None].
Qed.

Lemma informative_scan rest :
  ∀ self, Forall informative rest → scan rest false self = Return false self.
Proof.
  induction rest as [|x rest IH]; intros self H; [done|].
  apply Forall_cons in H as [(Hx & Hs & Hm) Hrest].
  rewrite scan_cons_fire by done.
  unfold fire. apply known_safes_None in Hs. apply known_mines_None in Hm.
  rewrite Hs, Hm. cbn [fst snd]. by apply IH.
Qed.

Lemma stable_informative self : stable self ↔ Forall informative (knowledge self).
Proof.
  split; [intros H; by apply scan_false in H as (_ & _ & ?)|apply informative_scan].
Qed.

(** * The closure *)

Lemma apply_knowledge_S depth self :
  apply_knowledge (S depth) self =
    match scan (knowledge self) false self with
    | Return true self' => apply_knowledge depth self'
    | Return false self' => Return tt self'
    | Raise e self' => Raise e self'
    end.
Proof.
  cbn [apply_knowledge]. unfold bind, get.
  destruct (scan (knowledge self) false self) as [[] ?|]; reflexivity.
Qed.


Lemma apply_knowledge_stable depth :
  ∀ self self', apply_knowledge depth self = Return tt self' → stable self'.
Proof.
  induction depth as [|depth IH]; intros self self' H; [discriminate|].
  rewrite apply_knowledge_S in H.
  destruct (scan (knowledge self) false self) as [[] s1|] eqn:E.
  - by eapply IH.
  - inversion H; subst. apply scan_false in E as (_ & -> & Hall).
    by apply informative_scan.
  - discriminate.
Qed.

Lemma apply_knowledge_stable_id depth self :
  stable self → apply_knowledge (S depth) self = Return tt self.
Proof. intros H. rewrite apply_knowledge_S. unfold stable in H. by rewrite H. Qed.


Example ex_closure_run : apply_knowledge 5 ex_closure = Return tt ex_closure_done.
Proof. vm_compute. reflexivity. Qed.

Example ex_closure_shallow :
  ∃ self, apply_knowledge 4 ex_closure = Raise RecursionError self.
Proof. eexists. vm_compute. reflexivity. Qed.

Example ex_two_moves_run :
  run [AddKnowledge 10 (0,0) 0; AddKnowledge 10 (0,1) 1] (init 3 3) = ex_two_moves.
Proof. vm_compute. reflexivity. Qed.

Example ex_board_counts :
  Minesweeper.nearby_mines ex_board (0,0) = 0 ∧
  Minesweeper.nearby_mines ex_board (0,1) = 1 ∧
  Minesweeper.mine_set ex_board = {[ (1,2) ]}.
Proof. vm_compute. done. Qed.

(** * Sentence.known_mines *)

(** C4 (as the code has it): [known_mines] returns the cell set of the
    sentence exactly when the count equals the number of cells, and [None]
    otherwise.  No test on emptiness is made: for the sentence with no cell
    and count zero the answer is the empty set, not [None]. *)
Theorem known_mines_by_count (x : Sentence.t) :
  (Sentence.known_mines x = Some (Sentence.cells x)
     ↔ Sentence.count x = len (Sentence.cells x)) ∧
  (Sentence.known_mines x = None
     ↔ Sentence.count x ≠ len (Sentence.cells x)) ∧
  Sentence.known_mines (Sentence.make ∅ 0) = Some ∅.
Proof.
  split; [|split].
  - unfold Sentence.known_mines. case_decide; naive_solver.
  - apply known_mines_None.
  - reflexivity.
Qed.

(** C4 fails as stated: the sentence with zero cells and count zero gets a
    set from [known_mines], the empty one. *)
Lemma known_mines_empty_sentence_not_none :
  Sentence.known_mines (Sentence.make ∅ 0) ≠ None.
Proof. vm_compute. discriminate. Qed.

(** * Properties of the closure *)



(** C10: every sentence left in the knowledge list when [apply_knowledge]
    returns has a cell, a count other than zero and a count other than the
    number of its cells; [known_mines] and [known_safes] are [None] on it. *)
Theorem apply_knowledge_leaves_informative (depth : nat) (self self' : t) :
  apply_knowledge depth self = Return tt self' →
  Forall (λ x, Sentence.cells x ≠ ∅ ∧ Sentence.count x ≠ 0 ∧
               Sentence.count x ≠ len (Sentence.cells x) ∧
               Sentence.known_mines x = None ∧ Sentence.known_safes x = None)
         (knowledge self').
Proof.
  intros H. apply apply_knowledge_stable, stable_informative in H.
  eapply Forall_impl; [exact H|].
  intros x (Hc & Hs & Hm). repeat split; try done.
  - by apply known_mines_None.
  - by apply known_safes_None.
Qed.

Lemma apply_knowledge_leaves_informative_witness :
  apply_knowledge 5 ex_closure = Return tt ex_closure_done ∧
  Forall (λ x, Sentence.cells x ≠ ∅ ∧ Sentence.count x ≠ 0 ∧
               Sentence.count x ≠ len (Sentence.cells x) ∧
               Sentence.known_mines x = None ∧ Sentence.known_safes x = None)
         (knowledge ex_closure_done).
Proof.
  split; [vm_compute; reflexivity|].
  apply (apply_knowledge_leaves_informative 5 ex_closure ex_closure_done).
  vm_compute; reflexivity.
Defined.

(** C6: once [apply_knowledge] has returned, running it again at once
    returns the same store: moves made, safes, mines and the knowledge list
    are those the first run left. *)
Theorem apply_knowledge_idempotent (depth depth' : nat) (self self' : t) :
  apply_knowledge depth self = Return tt self' →
  apply_knowledge (S depth') self' = Return tt self'.
Proof.
  intros H. apply apply_knowledge_stable_id. by eapply apply_knowledge_stable.
Qed.

Lemma apply_knowledge_idempotent_witness :
  apply_knowledge 5 ex_closure = Return tt ex_closure_done ∧
  apply_knowledge 1 ex_closure_done = Return tt ex_closure_done.
Proof.
  split; [vm_compute; reflexivity|].
  apply (apply_knowledge_idempotent 5 0 ex_closure ex_closure_done).
  vm_compute; reflexivity.
Defined.

(** * Resolution *)

(** What one pair of sentences contributes in [generate_new_knowledge]. *)
Lemma pair_step (a b : Sentence.t) (acc : list Sentence.t) (i j : nat) :
  (i = j → a = b) →
  (if negb (Sentence.eqb a b)
      && bool_decide (Sentence.cells a ⊆ Sentence.cells b)
   then
     if decide (len (Sentence.cells b ∖ Sentence.cells a) > 0)
     then acc ++ [Sentence.make (Sentence.cells b ∖ Sentence.cells a)
                                (Sentence.count b - Sentence.count a)]
     else acc
   else acc) = acc ++ candidate i a j b.
Proof.
  intros Hij. unfold candidate.
  assert (len (Sentence.cells b ∖ Sentence.cells a) > 0
          ↔ Sentence.cells b ∖ Sentence.cells a ≠ ∅) as Hlen.
  { rewrite <- len_empty_iff. unfold len. lia. }
  destruct (Sentence.eqb a b) eqn:E; cbn [negb andb].
  - apply eqb_spec in E as ->.
    rewrite decide_False; [by rewrite app_nil_r|]. intros (_ & _ & H). set_solver.
  - assert (i ≠ j) as Hne.
    { intros Heq. apply Hij in Heq as ->.
      assert (Sentence.eqb b b = true) by (by apply eqb_spec). congruence. }
    case_bool_decide as Hsub.
    + destruct (decide (len (Sentence.cells b ∖ Sentence.cells a) > 0)) as [Hl|Hl].
      * rewrite decide_True; [done|]. by rewrite <- Hlen.
      * rewrite decide_False; [by rewrite app_nil_r|]. intros (_ & _ & H). by apply Hlen in H.
    + rewrite decide_False; [by rewrite app_nil_r|]. intros (_ & H & _). done.
Qed.

Lemma foldl_collect {A B} (f : nat → A → list B) (step : list B → A → list B) (k l : list A) :
  ∀ (n : nat) (acc : list B),
    (∀ acc i a, k !! i = Some a → step acc a = acc ++ f i a) →
    (∀ i a, l !! i = Some a → k !! (n + i)%nat = Some a) →
    foldl step acc l = acc ++ concat (imap (λ i, f (n + i)%nat) l).
Proof.
  induction l as [|a l IH]; intros n acc Hstep Hl; cbn [foldl imap concat].
  - by rewrite app_nil_r.
  - rewrite (Hstep acc (n + 0)%nat a) by (apply (Hl 0%nat); done).
    rewrite (IH (S n)); [|done|].
    + rewrite <- app_assoc. do 2 f_equal. f_equal.
      apply imap_ext. intros i x _. cbn. f_equal. lia.
    + intros i x Hi. replace (S n + i)%nat with (n + S i)%nat by lia.
      by apply Hl.
Qed.

Lemma generate_new_knowledge_run (self : t) :
  generate_new_knowledge self = Return (subset_rule (knowledge self)) self.
Proof.
  unfold generate_new_knowledge, bind, get, ret. f_equal.
  unfold subset_rule.
  rewrite (foldl_collect
             (λ i a, concat (imap (λ j b, candidate i a j b) (knowledge self)))
             _ (knowledge self) (knowledge self) 0 []); [done| |done].
  intros acc i a Hi.
  rewrite (foldl_collect (λ j b, candidate i a j b) _
             (knowledge self) (knowledge self) 0 acc); [done| |done].
  intros acc' j b Hj. apply pair_step. intros ->. congruence.
Qed.

Lemma elem_of_concat {A} (x : A) (ls : list (list A)) :
  x ∈ concat ls ↔ ∃ l, x ∈ l ∧ l ∈ ls.
Proof.
  rewrite list_elem_of_In, in_concat. split.
  - intros (l & Hl & Hx). exists l. by rewrite !list_elem_of_In.
  - intros (l & Hx & Hl). exists l. by rewrite <- !list_elem_of_In.
Qed.

(** Membership form of the subset rule. *)
Lemma elem_of_subset_rule (k : list Sentence.t) (x : Sentence.t) :
  x ∈ subset_rule k ↔
  ∃ i j a b, k !! i = Some a ∧ k !! j = Some b ∧ i ≠ j ∧
             Sentence.cells a ⊆ Sentence.cells b ∧
             Sentence.cells b ∖ Sentence.cells a ≠ ∅ ∧
             x = Sentence.make (Sentence.cells b ∖ Sentence.cells a)
                               (Sentence.count b - Sentence.count a).
Proof.
  unfold subset_rule. rewrite elem_of_concat. split.
  - intros (l & Hx & Hl). apply elem_of_lookup_imap in Hl as (i & a & -> & Hi).
    apply elem_of_concat in Hx as (l' & Hx & Hl').
    apply elem_of_lookup_imap in Hl' as (j & b & -> & Hj).
    unfold candidate in Hx. case_decide as Hc; [|by apply elem_of_nil in Hx].
    apply list_elem_of_singleton in Hx. destruct Hc as (? & ? & ?).
    by exists i, j, a, b.
  - intros (i & j & a & b & Hi & Hj & Hne & Hsub & Hd & ->).
    exists (concat (imap (λ j b, candidate i a j b) k)). split.
    + apply elem_of_concat. exists (candidate i a j b). split.
      * unfold candidate. rewrite decide_True by done. by apply list_elem_of_singleton.
      * apply elem_of_lookup_imap. by exists j, b.
    + apply elem_of_lookup_imap. by exists i, a.
Qed.

(** The same candidates, with "distinct" read as "not equal as sentences":
    two entries that are equal leave an empty difference. *)
Lemma elem_of_subset_rule_values (k : list Sentence.t) (x : Sentence.t) :
  x ∈ subset_rule k ↔
  ∃ a b, a ∈ k ∧ b ∈ k ∧ a ≠ b ∧
         Sentence.cells a ⊆ Sentence.cells b ∧
         Sentence.cells b ∖ Sentence.cells a ≠ ∅ ∧
         x = Sentence.make (Sentence.cells b ∖ Sentence.cells a)
                           (Sentence.count b - Sentence.count a).
Proof.
  rewrite elem_of_subset_rule. split.
  - intros (i & j & a & b & Hi & Hj & _ & Hsub & Hd & ->).
    exists a, b. repeat split; try done.
    + by eapply list_elem_of_lookup_2.
    + by eapply list_elem_of_lookup_2.
    + intros ->. set_solver.
  - intros (a & b & Ha & Hb & Hne & Hsub & Hd & ->).
    apply list_elem_of_lookup_1 in Ha as [i Hi].
    apply list_elem_of_lookup_1 in Hb as [j Hj].
    exists i, j, a, b. repeat split; try done. intros ->. congruence.
Qed.

(** C3: [generate_new_knowledge] returns the candidates of the subset rule
    for the ordered pairs of distinct entries of the knowledge list, each
    with cells [b.cells − a.cells] and count [b.count − a.count], those with
    an empty cell set left out, in the order of the pairs; and the store
    after the call is the store before it.  "Distinct" can be read as "at
    different places of the list" or as "not equal": the candidates are the
    same. *)
Theorem generate_new_knowledge_subset_rule (self : t) :
  generate_new_knowledge self = Return (subset_rule (knowledge self)) self ∧
  (∀ x, x ∈ subset_rule (knowledge self) ↔
        ∃ i j a b, knowledge self !! i = Some a ∧ knowledge self !! j = Some b ∧
                   i ≠ j ∧ Sentence.cells a ⊆ Sentence.cells b ∧
                   Sentence.cells b ∖ Sentence.cells a ≠ ∅ ∧
                   x = Sentence.make (Sentence.cells b ∖ Sentence.cells a)
                                     (Sentence.count b - Sentence.count a)) ∧
  (∀ x, x ∈ subset_rule (knowledge self) ↔
        ∃ a b, a ∈ knowledge self ∧ b ∈ knowledge self ∧ a ≠ b ∧
               Sentence.cells a ⊆ Sentence.cells b ∧
               Sentence.cells b ∖ Sentence.cells a ≠ ∅ ∧
               x = Sentence.make (Sentence.cells b ∖ Sentence.cells a)
                                 (Sentence.count b - Sentence.count a)).
Proof.
  split; [apply generate_new_knowledge_run|].
  split; [apply elem_of_subset_rule|apply elem_of_subset_rule_values].
Qed.

Example subset_rule_try :
  subset_rule [ Sentence.make {[ (0,0); (0,1) ]} 1;
                Sentence.make {[ (0,0); (0,1); (0,2) ]} 2;
                Sentence.make {[ (0,0); (0,1) ]} 1 ]
  = [ Sentence.make {[ (0,2) ]} 1; Sentence.make {[ (0,2) ]} 1 ].
Proof. vm_compute. reflexivity. Qed.

(** * Nested loops over rows and columns *)

Lemma foldl_grid {A} (F : A → cell → A) (rows cols : list Z) (a : A) :
  foldl (λ acc row, foldl (λ acc col, F acc (row, col)) acc cols) a rows
  = foldl F a (grid rows cols).
Proof.
  revert a. induction rows as [|row rows IH]; intros a; [done|].
  cbn [foldl grid flat_map]. rewrite foldl_app, IH. f_equal.
  clear. revert a. induction cols as [|col cols IH]; intros a; [done|].
  cbn [foldl map]. apply IH.
Qed.

Lemma elem_of_range (a b x : Z) : x ∈ range a b ↔ a ≤ x < b.
Proof.
  unfold range. rewrite list_elem_of_In, in_map_iff. split.
  - intros (k & <- & Hk). apply in_seq in Hk. lia.
  - intros H. exists (Z.to_nat (x - a)). split; [lia|]. apply in_seq. lia.
Qed.

Lemma NoDup_range (a b : Z) : NoDup (range a b).
Proof.
  unfold range.
  change (NoDup ((λ k : nat, a + Z.of_nat k) <$> seq 0 (Z.to_nat (b - a)))).
  apply NoDup_fmap_2; [|apply NoDup_seq]. intros k1 k2 H. lia.
Qed.

Lemma elem_of_grid (rows cols : list Z) (c : cell) :
  c ∈ grid rows cols ↔ c.1 ∈ rows ∧ c.2 ∈ cols.
Proof.
  unfold grid. rewrite list_elem_of_In, in_flat_map. split.
  - intros (row & Hrow & Hc). apply in_map_iff in Hc as (col & <- & Hcol).
    by rewrite !list_elem_of_In.
  - intros [Hr Hc]. exists c.1. rewrite <- list_elem_of_In. split; [done|].
    apply in_map_iff. exists c.2. rewrite <- list_elem_of_In. by destruct c.
Qed.

Lemma NoDup_grid (rows cols : list Z) :
  NoDup rows → NoDup cols → NoDup (grid rows cols).
Proof.
  intros Hr Hc. induction Hr as [|row rows Hnin Hr IH]; [constructor|].
  cbn [grid flat_map]. apply NoDup_app. split; [|split].
  - change (NoDup ((λ col, (row, col)) <$> cols)).
    apply NoDup_fmap_2; [|done]. intros ?? H. by inversion H.
  - intros c Hc1 Hc2. apply list_elem_of_In, in_map_iff in Hc1 as (col & <- & _).
    apply (elem_of_grid rows cols) in Hc2 as [H _]. done.
  - exact IH.
Qed.

Lemma elem_of_window (c x : cell) :
  x ∈ window c ↔ (c.1 - 1 ≤ x.1 < c.1 + 2) ∧ (c.2 - 1 ≤ x.2 < c.2 + 2).
Proof. unfold window. by rewrite elem_of_grid, !elem_of_range. Qed.

Lemma NoDup_window (c : cell) : NoDup (window c).
Proof. apply NoDup_grid; apply NoDup_range. Qed.

(** A loop that adds to a set the cells that pass a test. *)
Lemma foldl_add_set (P : cell → Prop) `{!∀ x, Decision (P x)}
      (F : gset cell → cell → gset cell) (l : list cell) :
  (∀ acc x, F acc x = if decide (P x) then acc ∪ {[x]} else acc) →
  ∀ a, foldl F a l = a ∪ list_to_set (filter P l).
Proof.
  intros HF. induction l as [|x l IH]; intros a; cbn [foldl].
  - set_solver.
  - rewrite IH, HF. rewrite filter_cons. case_decide; set_solver.
Qed.

(** A loop that counts the cells that pass a test. *)
Lemma foldl_count (P : cell → Prop) `{!∀ x, Decision (P x)}
      (F : Z → cell → Z) (l : list cell) :
  (∀ acc x, F acc x = if decide (P x) then acc + 1 else acc) →
  ∀ a, foldl F a l = a + Z.of_nat (length (filter P l)).
Proof.
  intros HF. induction l as [|x l IH]; intros a; cbn [foldl].
  - cbn. lia.
  - rewrite IH, HF. rewrite filter_cons. case_decide; cbn [length]; lia.
Qed.

Lemma in_bounds_on_board (self : t) (x : cell) :
  in_bounds self x.1 x.2 = true ↔ on_board (height self) (width self) x.
Proof.
  unfold in_bounds, on_board. by rewrite andb_true_iff, !bool_decide_eq_true.
Qed.

Lemma elem_of_neighbouring (h w : Z) (c x : cell) :
  x ∈ neighbouring h w c ↔ x ∈ window c ∧ on_board h w x.
Proof.
  unfold neighbouring. rewrite elem_of_list_to_set, list_elem_of_filter. tauto.
Qed.

Lemma centre_neighbouring (h w : Z) (c : cell) :
  c ∈ neighbouring h w c ↔ on_board h w c.
Proof.
  rewrite elem_of_neighbouring, elem_of_window. split; [tauto|]. intros H.
  split; [lia|done].
Qed.

(** * The methods of the agent, run *)

Lemma get_neighbouring_cells_run (c : cell) (self : t) :
  get_neighbouring_cells c self =
    if decide (on_board (height self) (width self) c)
    then Return (neighbouring (height self) (width self) c ∖ {[c]}) self
    else Raise KeyError self.
Proof.
  unfold get_neighbouring_cells, bind, get.
  rewrite (foldl_grid (λ acc rc, if in_bounds self rc.1 rc.2 then acc ∪ {[rc]} else acc)).
  rewrite (foldl_add_set (on_board (height self) (width self))).
  2:{ intros acc x. pose proof (in_bounds_on_board self x) as Hb.
      destruct (in_bounds self x.1 x.2); case_decide; naive_solver. }
  fold (window c). rewrite union_empty_l_L. fold (neighbouring (height self) (width self) c).
  destruct (decide (on_board (height self) (width self) c)) as [Hon|Hoff].
  - rewrite decide_True by (by apply centre_neighbouring). reflexivity.
  - rewrite decide_False by (by rewrite centre_neighbouring). reflexivity.
Qed.

Lemma mark_safe_run (c : cell) (self : t) :
  mark_safe c self = Return tt (mark_safes_all {[c]} self).
Proof.
  pose proof (for_mark_safe [c] self) as H. cbn [for_] in H.
  unfold bind at 1 in H. unfold mark_safe, bind, modify in *. cbn [ret] in H.
  unfold ret in H. rewrite H. do 2 f_equal. set_solver.
Qed.

Lemma mark_mine_run (c : cell) (self : t) :
  mark_mine c self = Return tt (mark_mines_all {[c]} self).
Proof.
  pose proof (for_mark_mine [c] self) as H. cbn [for_] in H.
  unfold bind at 1 in H. unfold mark_mine, bind, modify in *. cbn [ret] in H.
  unfold ret in H. rewrite H. do 2 f_equal. set_solver.
Qed.

Lemma run_add_knowledge_off (depth : nat) (c : cell) (count : Z) (self : t) :
  ¬ on_board (height self) (width self) c →
  add_knowledge depth c count self = Raise KeyError (noted c self).
Proof.
  intros Hoff. unfold add_knowledge.
  unfold bind at 1. unfold modify at 1.
  unfold bind at 1. rewrite mark_safe_run.
  unfold bind at 1. unfold get_hidden_neighbouring_cells. unfold bind at 1.
  rewrite get_neighbouring_cells_run.
  cbn [mark_safes_all set_knowledge set_safes set_moves_made height width].
  rewrite decide_False by done. reflexivity.
Qed.

Lemma run_add_knowledge_on (depth : nat) (c : cell) (count : Z) (self : t) :
  on_board (height self) (width self) c →
  add_knowledge depth c count self =
    match apply_knowledge depth
            (observed c count (neighbouring (height self) (width self) c ∖ {[c]}) self) with
    | Return _ closed =>
        Return tt (set_knowledge (knowledge closed ++ subset_rule (knowledge closed)) closed)
    | Raise e self' => Raise e self'
    end.
Proof.
  intros Hon. unfold add_knowledge.
  unfold bind at 1. unfold modify at 1.
  unfold bind at 1. rewrite mark_safe_run.
  unfold bind at 1. unfold get_hidden_neighbouring_cells. unfold bind at 1.
  rewrite get_neighbouring_cells_run.
  cbn [mark_safes_all set_knowledge set_safes set_moves_made height width].
  rewrite decide_True by done. unfold bind, get, ret, modify.
  change (moves_made (mark_safes_all {[c]}
            (set_moves_made (moves_made self ∪ {[c]}) self)))
    with (moves_made self ∪ {[c]}).
  unfold observed.
  set (hidden := neighbouring (height self) (width self) c ∖ {[c]} ∖ (moves_made self ∪ {[c]})).
  assert (len hidden > 0 ↔ hidden ≠ ∅) as Hlen.
  { rewrite <- len_empty_iff. unfold len. lia. }
  change (mark_safes_all {[c]} (set_moves_made (moves_made self ∪ {[c]}) self))
    with (noted c self).
  destruct (decide (len hidden > 0)) as [Hl|Hl];
    destruct (decide (hidden = ∅)) as [He|He]; try (exfalso; tauto);
    rewrite ?app_nil_r;
    match goal with
    | |- match apply_knowledge depth ?a with _ => _ end
         = match apply_knowledge depth ?b with _ => _ end =>
        change a with b; destruct (apply_knowledge depth b) as [[] closed|]; [|done]
    end;
    rewrite generate_new_knowledge_run; reflexivity.
Qed.

(** * add_knowledge *)

Lemma get_hidden_neighbouring_cells_run (c : cell) (self : t) :
  get_hidden_neighbouring_cells c self =
    if decide (on_board (height self) (width self) c)
    then Return (neighbouring (height self) (width self) c ∖ {[c]} ∖ moves_made self) self
    else Raise KeyError self.
Proof.
  unfold get_hidden_neighbouring_cells, bind. rewrite get_neighbouring_cells_run.
  case_decide; reflexivity.
Qed.


Lemma length_window (c : cell) : length (window c) = 9%nat.
Proof.
  unfold window, grid, range.
  replace (c.1 + 2 - (c.1 - 1)) with 3 by lia.
  replace (c.2 + 2 - (c.2 - 1)) with 3 by lia.
  reflexivity.
Qed.




(** The facts that follow from the sentences resolution appends wait for a
    later call: after the second observation on [ex_board_mid] the list
    holds [{(0,2), (1,2)} = 0], yet neither cell is in [safes]; the next
    observation marks both. *)
Example resolution_results_deferred :
  add_knowledge 10 (0,0) 1 (init 3 3) = Return tt ex_mid_one ∧
  add_knowledge 10 (0,1) 1 ex_mid_one = Return tt ex_mid_two ∧
  Sentence.make {[ (0,2); (1,2) ]} 0 ∈ knowledge ex_mid_two ∧
  ((0,2) ∉ safes ex_mid_two) ∧ ((1,2) ∉ safes ex_mid_two) ∧
  ∃ self', add_knowledge 10 (1,0) 1 ex_mid_two = Return tt self' ∧
           (0,2) ∈ safes self' ∧ (1,2) ∈ safes self'.
Proof.
  split; [vm_compute; reflexivity|]. split; [vm_compute; reflexivity|].
  split; [unfold ex_mid_two; cbn [knowledge]; set_solver|].
  split; [vm_compute; intros H; discriminate|]. split; [vm_compute; intros H; discriminate|].
  eexists. split; [vm_compute; reflexivity|].
  split; vm_compute; reflexivity.
Qed.

(** * Moves *)

Lemma choose_elem (pick : nat) (s : gset cell) :
  s ≠ ∅ → ∃ c, choose pick s = Some c ∧ c ∈ s.
Proof.
  intros Hs. unfold choose.
  assert (length (elements s) ≠ 0%nat) as Hlen.
  { intros E. apply length_zero_iff_nil, elements_empty_iff, leibniz_equiv in E. done. }
  destruct (lookup_lt_is_Some_2 (elements s) (pick `mod` length (elements s))%nat)
    as [c Hc]; [by apply Nat.mod_upper_bound|].
  exists c. split; [done|]. apply elem_of_elements. by eapply list_elem_of_lookup_2.
Qed.



Example make_random_move_try :
  make_random_move 7 ex_two_moves = Return (Some (1,2)) ex_two_moves.
Proof. vm_compute. reflexivity. Qed.

(** * Observations outside the board *)

(** C9 (as the code has it): for a cell outside the board [add_knowledge]
    raises [KeyError], from the removal of the cell from its own neighbour
    set, and by then the cell is in [moves_made] and in [safes] and has been
    struck from the sentences.  [mines] is as before, no sentence is
    appended, and the knowledge list is as before when no sentence mentions
    the cell. *)
Theorem add_knowledge_off_board (depth : nat) (c : cell) (count : Z) (self : t) :
  ¬ on_board (height self) (width self) c →
  ∃ self', add_knowledge depth c count self = Raise KeyError self' ∧
    moves_made self' = moves_made self ∪ {[c]} ∧
    safes self' = safes self ∪ {[c]} ∧
    mines self' = mines self ∧
    knowledge self' = map (strike_safes {[c]}) (knowledge self) ∧
    ((∀ x, x ∈ knowledge self → c ∉ Sentence.cells x) →
     knowledge self' = knowledge self).
Proof.
  intros Hoff. exists (noted c self). split; [by apply run_add_knowledge_off|].
  repeat (split; [reflexivity|]). intros Hnone. cbn [noted knowledge].
  rewrite <- (map_id (knowledge self)) at 2. apply map_ext_in. intros x Hx.
  apply list_elem_of_In, Hnone in Hx.
  apply sentence_eq; cbn [strike_safes Sentence.cells Sentence.count]; [set_solver|done].
Qed.

Lemma add_knowledge_off_board_witness :
  ¬ on_board (height (init 8 8)) (width (init 8 8)) (8, 0) ∧
  ∃ self', add_knowledge 10 (8,0) 1 (init 8 8) = Raise KeyError self' ∧
    moves_made self' = moves_made (init 8 8) ∪ {[ (8,0) ]} ∧
    safes self' = safes (init 8 8) ∪ {[ (8,0) ]} ∧
    mines self' = mines (init 8 8) ∧
    knowledge self' = map (strike_safes {[ (8,0) ]}) (knowledge (init 8 8)) ∧
    ((∀ x, x ∈ knowledge (init 8 8) → (8,0) ∉ Sentence.cells x) →
     knowledge self' = knowledge (init 8 8)).
Proof.
  assert (¬ on_board (height (init 8 8)) (width (init 8 8)) (8, 0)) as Hoff.
  { unfold on_board. cbn. lia. }
  split; [exact Hoff|].
  apply (add_knowledge_off_board 10 (8,0) 1 (init 8 8)). exact Hoff.
Defined.

(** C9 fails as stated: the call on a cell outside the board is not turned
    away with the store untouched.  On a fresh 8 x 8 agent the observation of
    [(8, 0)] raises, and the store it leaves has that cell, which is no cell
    of the board, as a move made and as a safe cell. *)
Lemma add_knowledge_off_board_not_rejected :
  add_knowledge 10 (8,0) 1 (init 8 8)
    = Raise KeyError (make 8 8 {[ (8,0) ]} ∅ {[ (8,0) ]} []) ∧
  ¬ (∃ e, add_knowledge 10 (8,0) 1 (init 8 8) = Raise e (init 8 8)) ∧
  ¬ (∀ c, c ∈ moves_made (store_of (add_knowledge 10 (8,0) 1 (init 8 8))) →
          on_board 8 8 c).
Proof.
  split; [vm_compute; reflexivity|]. split.
  - intros [e H]. vm_compute in H. discriminate.
  - intros H. specialize (H (8,0)). unfold on_board in H. cbn [fst snd] in H.
    assert (8 < 8) as Hlt; [|lia]. apply H. vm_compute. reflexivity.
Qed.

(** * Known cells and the sentences *)

Lemma settles_refl self : settles self self.
Proof. intros c H. done. Qed.

Lemma settles_trans s1 s2 s3 : settles s1 s2 → settles s2 s3 → settles s1 s3.
Proof.
  intros H12 H23 c H3. destruct (H23 c H3) as [H2 K2].
  destruct (H12 c H2) as [H1 K1]. split; [done|auto].
Qed.

Lemma settles_mark_mines_all hit self : settles self (mark_mines_all hit self).
Proof.
  intros c (x' & Hx' & Hc). cbn [mark_mines_all knowledge set_knowledge] in Hx'.
  apply list_elem_of_In, in_map_iff in Hx' as (x & <- & Hx). apply list_elem_of_In in Hx.
  cbn [strike_mines Sentence.cells] in Hc. apply elem_of_difference in Hc as [Hc Hnot].
  split; [by exists x|].
  unfold known. cbn [mark_mines_all safes mines set_knowledge set_mines]. set_solver.
Qed.

Lemma settles_mark_safes_all hit self : settles self (mark_safes_all hit self).
Proof.
  intros c (x' & Hx' & Hc). cbn [mark_safes_all knowledge set_knowledge] in Hx'.
  apply list_elem_of_In, in_map_iff in Hx' as (x & <- & Hx). apply list_elem_of_In in Hx.
  cbn [strike_safes Sentence.cells] in Hc. apply elem_of_difference in Hc as [Hc Hnot].
  split; [by exists x|].
  unfold known. cbn [mark_safes_all safes mines set_knowledge set_safes]. set_solver.
Qed.

Lemma settles_fire x flag self : settles self (fire x flag self).2.
Proof.
  unfold fire.
  destruct (Sentence.known_mines x), (Sentence.known_safes x); cbn [fst snd];
    eauto using settles_refl, settles_trans, settles_mark_mines_all, settles_mark_safes_all.
Qed.

Lemma list_remove_subset (x : Sentence.t) (l k : list Sentence.t) :
  list_remove x l = Some k → ∀ y, y ∈ k → y ∈ l.
Proof.
  revert k. induction l as [|z l IH]; intros k H y Hy; [discriminate|].
  cbn [list_remove] in H. destruct (Sentence.eqb z x).
  - inversion H; subst. by right.
  - destruct (list_remove x l) as [k'|]; [|discriminate].
    inversion H; subst. apply elem_of_cons in Hy as [->|Hy]; [by left|].
    right. by eapply IH.
Qed.

Lemma settles_remove x k self :
  list_remove x (knowledge self) = Some k → settles self (set_knowledge k self).
Proof.
  intros H c (y & Hy & Hc). cbn [knowledge set_knowledge] in Hy.
  split; [exists y; split; [by apply (list_remove_subset x _ k)|done]|done].
Qed.

Lemma settles_scan rest :
  ∀ flag self flag' self',
    scan rest flag self = Return flag' self' → settles self self'.
Proof.
  induction rest as [|x rest IH]; intros flag self flag' self' H.
  - inversion H; subst. apply settles_refl.
  - destruct (decide (Sentence.cells x = ∅)) as [Hx|Hx].
    + rewrite scan_cons_empty in H by done.
      destruct (list_remove x (knowledge self)) as [k|] eqn:E; [|discriminate].
      inversion H; subst. by apply (settles_remove x).
    + rewrite scan_cons_fire in H by done.
      eapply settles_trans; [apply settles_fire|by eapply IH].
Qed.

Lemma settles_apply_knowledge depth :
  ∀ self self', apply_knowledge depth self = Return tt self' → settles self self'.
Proof.
  induction depth as [|depth IH]; intros self self' H; [discriminate|].
  rewrite apply_knowledge_S in H.
  destruct (scan (knowledge self) false self) as [[] mid|] eqn:E; [| |discriminate].
  - eapply settles_trans; [by eapply settles_scan|by apply IH].
  - inversion H; subst. by eapply settles_scan.
Qed.

(** C2 (as the code has it): when [apply_knowledge] returns, a cell that a
    sentence of the list mentions and that is in [safes] or [mines] was
    mentioned and was in [safes] or [mines] already when the call began; the
    cells the call itself has marked are in no sentence.  So a list that
    mentioned no known cell before the call mentions none after it. *)
Theorem apply_knowledge_strikes_marked (depth : nat) (self self' : t) :
  apply_knowledge depth self = Return tt self' →
  (∀ x c, x ∈ knowledge self' → c ∈ Sentence.cells x →
          c ∈ safes self' ∪ mines self' →
          c ∈ safes self ∪ mines self ∧
          ∃ y, y ∈ knowledge self ∧ c ∈ Sentence.cells y) ∧
  (clean self → clean self').
Proof.
  intros H. apply settles_apply_knowledge in H. split.
  - intros x c Hx Hc Hk. destruct (H c) as [Hm Hkn]; [by exists x|].
    split; [|exact Hm]. unfold known in Hkn. set_solver.
  - intros Hclean x c Hx Hc. destruct (H c) as [(y & Hy & Hcy) Hkn]; [by exists x|].
    destruct (Hclean y c Hy Hcy) as [Hs Hm]. unfold known in Hkn.
    split; intros Hin; tauto.
Qed.

Lemma apply_knowledge_strikes_marked_witness :
  apply_knowledge 5 ex_closure = Return tt ex_closure_done ∧
  (∀ x c, x ∈ knowledge ex_closure_done → c ∈ Sentence.cells x →
          c ∈ safes ex_closure_done ∪ mines ex_closure_done →
          c ∈ safes ex_closure ∪ mines ex_closure ∧
          ∃ y, y ∈ knowledge ex_closure ∧ c ∈ Sentence.cells y) ∧
  (clean ex_closure → clean ex_closure_done).
Proof.
  split; [vm_compute; reflexivity|].
  apply (apply_knowledge_strikes_marked 5 ex_closure ex_closure_done).
  vm_compute; reflexivity.
Defined.

(** C2 fails as stated: after the observations [(0,0) -> 0] and
    [(0,1) -> 1] on [ex_board] the closure is at its fixpoint, and the
    sentence of the second observation still mentions [(1,0)], which the
    first observation made safe. *)
Lemma closure_leaves_known_cell :
  run [AddKnowledge 10 (0,0) 0; AddKnowledge 10 (0,1) 1] (init 3 3) = ex_two_moves ∧
  add_knowledge 10 (0,1) 1 (exec (AddKnowledge 10 (0,0) 0) (init 3 3))
    = Return tt ex_two_moves ∧
  apply_knowledge 10 ex_two_moves = Return tt ex_two_moves ∧
  Sentence.make {[ (0,2); (1,0); (1,1); (1,2) ]} 1 ∈ knowledge ex_two_moves ∧
  (1,0) ∈ safes ex_two_moves ∧
  ¬ clean ex_two_moves.
Proof.
  split; [vm_compute; reflexivity|]. split; [vm_compute; reflexivity|].
  split; [vm_compute; reflexivity|].
  assert (Sentence.make {[ (0,2); (1,0); (1,1); (1,2) ]} 1 ∈ knowledge ex_two_moves) as Hin
    by (unfold ex_two_moves; cbn [knowledge]; set_solver).
  assert ((1,0) ∈ safes ex_two_moves) as Hsafe by (vm_compute; reflexivity).
  split; [done|]. split; [done|].
  intros Hclean. destruct (Hclean _ (1,0) Hin) as [Hs _]; [|done].
  vm_compute. reflexivity.
Qed.

(** * Soundness on a board *)

Section Soundness.

Variables (h w : Z) (truth : gset cell).

Lemma sound_sentence_strike_mines hit x :
  hit ⊆ truth → sound_sentence truth x → sound_sentence truth (strike_mines hit x).
Proof.
  unfold sound_sentence. cbn [strike_mines Sentence.cells Sentence.count].
  intros Hhit ->.
  assert (Sentence.cells x ∩ truth
          = ((Sentence.cells x ∖ hit) ∩ truth) ∪ (Sentence.cells x ∩ hit)) as Hsplit.
  { apply set_eq. intros y. destruct (decide (y ∈ hit)); set_solver. }
  assert (size (Sentence.cells x ∩ truth)
          = (size ((Sentence.cells x ∖ hit) ∩ truth) + size (Sentence.cells x ∩ hit))%nat)
    as Hsz.
  { rewrite Hsplit at 1. apply size_union. set_solver. }
  unfold len. rewrite Hsz. lia.
Qed.

Lemma sound_sentence_strike_safes hit x :
  hit ## truth → sound_sentence truth x → sound_sentence truth (strike_safes hit x).
Proof.
  unfold sound_sentence. cbn [strike_safes Sentence.cells Sentence.count].
  intros Hhit ->. f_equal. set_solver.
Qed.

Lemma sound_mark_mines_all hit self :
  hit ⊆ truth → sound h w truth self → sound h w truth (mark_mines_all hit self).
Proof.
  intros Hhit (Hh & Hw & Hm & Hs & Hmv & Hk). unfold sound.
  cbn [mark_mines_all height width mines safes moves_made knowledge set_knowledge set_mines].
  repeat split; try done; [set_solver|].
  apply Forall_map. eapply Forall_impl; [exact Hk|].
  intros x Hx. by apply sound_sentence_strike_mines.
Qed.

Lemma sound_mark_safes_all hit self :
  hit ## truth → sound h w truth self → sound h w truth (mark_safes_all hit self).
Proof.
  intros Hhit (Hh & Hw & Hm & Hs & Hmv & Hk). unfold sound.
  cbn [mark_safes_all height width mines safes moves_made knowledge set_knowledge set_safes].
  repeat split; try done; [set_solver|].
  apply Forall_map. eapply Forall_impl; [exact Hk|].
  intros x Hx. by apply sound_sentence_strike_safes.
Qed.

(** A true sentence whose count is the number of its cells holds mines
    only; one whose count is zero holds none. *)
Lemma known_mines_sound x hit :
  sound_sentence truth x → Sentence.known_mines x = Some hit → hit ⊆ truth.
Proof.
  unfold sound_sentence. intros Hx Hm. apply known_mines_Some in Hm as [-> Hlen].
  rewrite Hx in Hlen. unfold len in Hlen.
  assert (Sentence.cells x ∩ truth = Sentence.cells x) as Heq.
  { apply set_subseteq_size_eq; [set_solver|lia]. }
  set_solver.
Qed.

Lemma known_safes_sound x hit :
  sound_sentence truth x → Sentence.known_safes x = Some hit → hit ## truth.
Proof.
  unfold sound_sentence. intros Hx Hs. apply known_safes_Some in Hs as [-> H0].
  rewrite Hx in H0. apply len_empty_iff in H0. set_solver.
Qed.

Lemma sound_fire x flag self :
  sound_sentence truth x → sound h w truth self → sound h w truth (fire x flag self).2.
Proof.
  intros Hx Hs. unfold fire.
  destruct (Sentence.known_mines x) as [hit|] eqn:Hm;
    destruct (Sentence.known_safes x) as [hit'|] eqn:Hsf; cbn [fst snd];
    eauto using sound_mark_mines_all, sound_mark_safes_all,
                known_mines_sound, known_safes_sound.
Qed.

Lemma sound_scan rest :
  ∀ flag self,
    Forall (sound_sentence truth) rest → sound h w truth self →
    sound h w truth (store_of (scan rest flag self)).
Proof.
  induction rest as [|x rest IH]; intros flag self Hrest Hs; [done|].
  apply Forall_cons in Hrest as [Hx Hrest].
  destruct (decide (Sentence.cells x = ∅)) as [He|He].
  - rewrite scan_cons_empty by done.
    destruct (list_remove x (knowledge self)) as [k|] eqn:E; [|done].
    cbn [store_of]. destruct Hs as (Hh & Hw & Hm & Hsf & Hmv & Hk).
    repeat split; try done. cbn [knowledge set_knowledge].
    apply Forall_forall. intros y Hy.
    eapply Forall_forall in Hk; [exact Hk|]. by apply (list_remove_subset x _ k).
  - rewrite scan_cons_fire by done. apply IH; [done|]. by apply sound_fire.
Qed.

Lemma sound_apply_knowledge depth :
  ∀ self, sound h w truth self →
          sound h w truth (store_of (apply_knowledge depth self)).
Proof.
  induction depth as [|depth IH]; intros self Hs; [done|].
  rewrite apply_knowledge_S.
  pose proof (sound_scan (knowledge self) false self) as Hscan.
  destruct (scan (knowledge self) false self) as [[] mid|e mid];
    cbn [store_of] in Hscan.
  - apply IH, Hscan; [by destruct Hs as (_ & _ & _ & _ & _ & ?)|done].
  - apply Hscan; [by destruct Hs as (_ & _ & _ & _ & _ & ?)|done].
  - apply Hscan; [by destruct Hs as (_ & _ & _ & _ & _ & ?)|done].
Qed.

Lemma sound_subset_rule k :
  Forall (sound_sentence truth) k → Forall (sound_sentence truth) (subset_rule k).
Proof.
  intros Hk. apply Forall_forall. intros x Hx.
  apply elem_of_subset_rule in Hx as (i & j & a & b & Hi & Hj & _ & Hsub & _ & ->).
  assert (sound_sentence truth a) as Ha
    by (eapply Forall_forall; [exact Hk|by eapply list_elem_of_lookup_2]).
  assert (sound_sentence truth b) as Hb
    by (eapply Forall_forall; [exact Hk|by eapply list_elem_of_lookup_2]).
  unfold sound_sentence in *. cbn [Sentence.cells Sentence.count]. rewrite Ha, Hb.
  assert (Sentence.cells b ∩ truth
          = ((Sentence.cells b ∖ Sentence.cells a) ∩ truth) ∪ (Sentence.cells a ∩ truth))
    as Hsplit.
  { apply set_eq. intros y. destruct (decide (y ∈ Sentence.cells a)); set_solver. }
  assert (size (Sentence.cells b ∩ truth)
          = (size ((Sentence.cells b ∖ Sentence.cells a) ∩ truth)
             + size (Sentence.cells a ∩ truth))%nat) as Hsz.
  { rewrite Hsplit at 1. apply size_union. set_solver. }
  unfold len. rewrite Hsz. lia.
Qed.

Lemma sound_noted c self :
  c ∉ truth → sound h w truth self → sound h w truth (noted c self).
Proof.
  intros Hc (Hh & Hw & Hm & Hs & Hmv & Hk). unfold sound.
  cbn [noted height width mines safes moves_made knowledge].
  repeat split; try done; [set_solver|set_solver|].
  apply Forall_map. eapply Forall_impl; [exact Hk|].
  intros x Hx. apply sound_sentence_strike_safes; [set_solver|done].
Qed.

(** An observation of a cell without a mine, with the number of mines
    among its neighbours on the board, keeps the store true. *)
Lemma sound_add_knowledge depth c count self :
  c ∉ truth →
  count = len ((neighbouring h w c ∖ {[c]}) ∩ truth) →
  sound h w truth self →
  sound h w truth (store_of (add_knowledge depth c count self)).
Proof.
  intros Hc Hcount Hs.
  pose proof (sound_noted c self Hc Hs) as Hn.
  destruct (decide (on_board (height self) (width self) c)) as [Hon|Hoff];
    [|by rewrite run_add_knowledge_off].
  rewrite run_add_knowledge_on by done.
  assert (sound h w truth
            (observed c count (neighbouring (height self) (width self) c ∖ {[c]}) self))
    as Hobs.
  { destruct Hn as (Hh & Hw & Hm & Hsf & Hmv & Hk). unfold sound, observed.
    cbn [noted height width mines safes moves_made knowledge] in *.
    repeat split; try done. apply Forall_app. split; [done|].
    case_decide; [constructor|]. constructor; [|constructor].
    unfold sound_sentence. cbn [Sentence.cells Sentence.count].
    rewrite Hcount, Hh, Hw. f_equal. set_solver. }
  pose proof (sound_apply_knowledge depth _ Hobs) as Hcl.
  destruct (apply_knowledge depth _) as [[] closed|e closed]; cbn [store_of] in *;
    [|done].
  destruct Hcl as (Hh & Hw & Hm & Hsf & Hmv & Hk). unfold sound.
  cbn [set_knowledge height width mines safes moves_made knowledge].
  repeat split; try done. apply Forall_app. split; [done|]. by apply sound_subset_rule.
Qed.

End Soundness.

(** * The board's answers *)

Lemma elem_of_mine_set (g : Minesweeper.t) (x : cell) :
  x ∈ Minesweeper.mine_set g ↔
  on_board (Minesweeper.height g) (Minesweeper.width g) x ∧
  Minesweeper.board_at g x.1 x.2 = true.
Proof.
  unfold Minesweeper.mine_set.
  rewrite (foldl_grid (λ acc rc, if Minesweeper.board_at g rc.1 rc.2
                                 then acc ∪ {[rc]} else acc)).
  rewrite (foldl_add_set (λ rc, Minesweeper.board_at g rc.1 rc.2 = true)).
  2:{ intros acc rc. destruct (Minesweeper.board_at g rc.1 rc.2); case_decide; done. }
  rewrite elem_of_union, elem_of_list_to_set, list_elem_of_filter, elem_of_grid.
  unfold range0, on_board. rewrite !elem_of_range. set_solver.
Qed.

(** [nearby_mines] counts the mines among the neighbours the agent computes
    for a board of the same size. *)
Lemma nearby_mines_count (g : Minesweeper.t) (c : cell) :
  Minesweeper.nearby_mines g c =
  len ((neighbouring (Minesweeper.height g) (Minesweeper.width g) c ∖ {[c]})
       ∩ Minesweeper.mine_set g).
Proof.
  set (P := λ rc : cell,
         rc ≠ c ∧ on_board (Minesweeper.height g) (Minesweeper.width g) rc ∧
         Minesweeper.board_at g rc.1 rc.2 = true).
  unfold Minesweeper.nearby_mines.
  rewrite (foldl_grid (λ count rc,
             if decide (rc = c) then count
             else if Minesweeper.in_bounds g rc.1 rc.2
                  then (if Minesweeper.board_at g rc.1 rc.2 then count + 1 else count)
                  else count)).
  fold (window c). rewrite (foldl_count P).
  2:{ intros acc rc. unfold P, on_board, Minesweeper.in_bounds.
      destruct (decide (rc = c)) as [->|Hne]; [rewrite decide_False; [done|tauto]|].
      do 2 case_bool_decide; cbn [andb];
        try (rewrite decide_False; [done|tauto]).
      destruct (Minesweeper.board_at g rc.1 rc.2);
        [rewrite decide_True; [done|tauto]|rewrite decide_False; [done|]].
      intros (_ & _ & ?). done. }
  assert ((neighbouring (Minesweeper.height g) (Minesweeper.width g) c ∖ {[c]})
          ∩ Minesweeper.mine_set g = list_to_set (filter P (window c))) as ->.
  { apply set_eq. intros x.
    rewrite elem_of_intersection, elem_of_difference, elem_of_neighbouring,
      elem_of_mine_set, elem_of_list_to_set, list_elem_of_filter.
    unfold P. set_solver. }
  unfold len. rewrite size_list_to_set; [lia|].
  apply NoDup_filter, NoDup_window.
Qed.

Lemma store_of_make_safe_move pick self : store_of (make_safe_move pick self) = self.
Proof. unfold make_safe_move, bind, get, ret. by case_decide. Qed.

Lemma store_of_make_random_move pick self : store_of (make_random_move pick self) = self.
Proof. unfold make_random_move, bind, get, ret. by case_decide. Qed.

Lemma sound_exec (g : Minesweeper.t) (o : op) (self : t) :
  truthful g o →
  sound (Minesweeper.height g) (Minesweeper.width g) (Minesweeper.mine_set g) self →
  sound (Minesweeper.height g) (Minesweeper.width g) (Minesweeper.mine_set g) (exec o self).
Proof.
  intros Ht Hs. destruct o as [depth c count|c|c|pick|pick]; cbn [exec truthful] in *.
  - destruct Ht as [Hc ->]. apply sound_add_knowledge; [done| |done].
    apply nearby_mines_count.
  - rewrite mark_mine_run. cbn [store_of]. apply sound_mark_mines_all; [set_solver|done].
  - rewrite mark_safe_run. cbn [store_of]. apply sound_mark_safes_all; [set_solver|done].
  - by rewrite store_of_make_safe_move.
  - by rewrite store_of_make_random_move.
Qed.

Lemma reachable_sound (g : Minesweeper.t) (self : t) :
  reachable g self →
  sound (Minesweeper.height g) (Minesweeper.width g) (Minesweeper.mine_set g) self.
Proof.
  induction 1 as [|self o _ IH Ht].
  - unfold sound, init. cbn [height width mines safes moves_made knowledge].
    repeat split; try done; try set_solver.
  - by apply sound_exec.
Qed.

(** On a board as the constructor builds it, every read in bounds finds a
    value: the default of [board_at] is never used. *)
Lemma board_at_wf (g : Minesweeper.t) (x : cell) :
  Minesweeper.wf g →
  on_board (Minesweeper.height g) (Minesweeper.width g) x →
  ∃ row, Minesweeper.board g !! Z.to_nat x.1 = Some row ∧
         row !! Z.to_nat x.2 = Some (Minesweeper.board_at g x.1 x.2).
Proof.
  intros [Hlen Hrows] [Hr Hc].
  destruct (lookup_lt_is_Some_2 (Minesweeper.board g) (Z.to_nat x.1)) as [row Hrow];
    [lia|].
  exists row. split; [done|].
  assert (length row = Z.to_nat (Minesweeper.width g)) as Hw.
  { eapply Forall_forall in Hrows; [exact Hrows|]. by eapply list_elem_of_lookup_2. }
  destruct (lookup_lt_is_Some_2 row (Z.to_nat x.2)) as [b Hb]; [lia|].
  unfold Minesweeper.board_at. rewrite Hrow. cbn. by rewrite Hb.
Qed.

(** C1 (as the code has it): on every store reached from the initial one by
    operations that tell the truth about a board (observations of cells
    without a mine carrying the board's own count, [mark_mine] on mines,
    [mark_safe] on cells without a mine, move queries), the cells known safe
    and the cells known to be mines are disjoint; every cell in [mines] is a
    mine of the board and no cell in [safes] is. *)
Theorem reachable_safes_mines_disjoint (g : Minesweeper.t) (self : t) :
  Minesweeper.wf g →
  reachable g self →
  safes self ∩ mines self = ∅ ∧
  mines self ⊆ Minesweeper.mine_set g ∧
  safes self ## Minesweeper.mine_set g.
Proof.
  intros _ H. apply reachable_sound in H as (_ & _ & Hm & Hs & _ & _).
  split; [set_solver|done].
Qed.

Lemma reachable_run (g : Minesweeper.t) (ops : list op) :
  ∀ self, reachable g self → Forall (truthful g) ops → reachable g (run ops self).
Proof.
  induction ops as [|o ops IH]; intros self Hr Hops; [done|].
  apply Forall_cons in Hops as [Ho Hops]. cbn [run foldl].
  apply IH; [by apply reachable_step|done].
Qed.

Example ex_mid_game : run ex_mid_ops (init 3 3) = ex_mid_final.
Proof. vm_compute. reflexivity. Qed.

Lemma ex_mid_truthful : Forall (truthful ex_board_mid) ex_mid_ops.
Proof.
  unfold ex_mid_ops.
  repeat (apply Forall_cons; split); try apply Forall_nil; cbn [truthful];
    try done; try (split; [|vm_compute; reflexivity]);
    rewrite elem_of_mine_set; unfold on_board; vm_compute;
    try (split; [lia|reflexivity]);
    intros [_ H]; discriminate.
Qed.

Lemma reachable_safes_mines_disjoint_witness :
  Minesweeper.wf ex_board_mid ∧
  reachable ex_board_mid (run ex_mid_ops (init 3 3)) ∧
  safes (run ex_mid_ops (init 3 3)) ∩ mines (run ex_mid_ops (init 3 3)) = ∅ ∧
  mines (run ex_mid_ops (init 3 3)) ⊆ Minesweeper.mine_set ex_board_mid ∧
  safes (run ex_mid_ops (init 3 3)) ## Minesweeper.mine_set ex_board_mid.
Proof.
  assert (Minesweeper.wf ex_board_mid) as Hwf.
  { split; [reflexivity|]. repeat constructor. }
  assert (reachable ex_board_mid (run ex_mid_ops (init 3 3))) as Hr.
  { apply reachable_run; [apply (reachable_init ex_board_mid)|apply ex_mid_truthful]. }
  split; [exact Hwf|]. split; [exact Hr|].
  apply (reachable_safes_mines_disjoint ex_board_mid (run ex_mid_ops (init 3 3)));
    [exact Hwf|exact Hr].
Defined.

(** C1 fails as stated: the public operations take any cell.  [mark_mine]
    and then [mark_safe] on one cell put it in both sets; so do two
    observations that no board can give, [(0,0) -> 3] followed by the
    observation of its neighbour [(0,1)]. *)
Lemma public_operations_overlap :
  run [MarkMine (0,0); MarkSafe (0,0)] (init 8 8)
    = make 8 8 ∅ {[ (0,0) ]} {[ (0,0) ]} [] ∧
  safes (run [MarkMine (0,0); MarkSafe (0,0)] (init 8 8))
    ∩ mines (run [MarkMine (0,0); MarkSafe (0,0)] (init 8 8)) ≠ ∅ ∧
  safes (run [AddKnowledge 10 (0,0) 3; AddKnowledge 10 (0,1) 0] (init 3 3))
    ∩ mines (run [AddKnowledge 10 (0,0) 3; AddKnowledge 10 (0,1) 0] (init 3 3)) ≠ ∅.
Proof.
  split; [vm_compute; reflexivity|].
  split; vm_compute; discriminate.
Qed.

Example ex_game_built : Game.init 3 3 3 ex_draws = Game.Built ex_game.
Proof. vm_compute. reflexivity. Qed.

(** * Further properties of the sentences *)

(** X1: in a sentence that is true of the board (its count is the number of
    its cells that are mines), the count lies between zero and the number of
    cells, the cells [known_mines] returns are all mines and the cells
    [known_safes] returns are all free of mines. *)
Theorem known_cells_are_right (truth : gset cell) (x : Sentence.t) :
  sound_sentence truth x →
  0 ≤ Sentence.count x ≤ len (Sentence.cells x) ∧
  (∀ hit, Sentence.known_mines x = Some hit → hit ⊆ truth) ∧
  (∀ hit, Sentence.known_safes x = Some hit → hit ## truth).
Proof.
  intros Hx. split; [|split].
  - unfold sound_sentence in Hx. rewrite Hx. unfold len.
    assert (size (Sentence.cells x ∩ truth) ≤ size (Sentence.cells x))%nat
      by (apply subseteq_size; set_solver).
    lia.
  - intros hit. by apply known_mines_sound.
  - intros hit. by apply known_safes_sound.
Qed.

Lemma known_cells_are_right_witness :
  sound_sentence ex_truth (Sentence.make {[ (0,1); (1,1) ]} 2) ∧
  0 ≤ 2 ≤ len {[ (0,1); (1,1) ]} ∧
  (∀ hit, Sentence.known_mines (Sentence.make {[ (0,1); (1,1) ]} 2) = Some hit →
          hit ⊆ ex_truth) ∧
  (∀ hit, Sentence.known_safes (Sentence.make {[ (0,1); (1,1) ]} 2) = Some hit →
          hit ## ex_truth).
Proof.
  assert (sound_sentence ex_truth (Sentence.make {[ (0,1); (1,1) ]} 2)) as Hs
    by (vm_compute; reflexivity).
  split; [exact Hs|].
  apply (known_cells_are_right ex_truth (Sentence.make {[ (0,1); (1,1) ]} 2) Hs).
Defined.

Lemma sound_sentence_mark_mine (truth : gset cell) (x : Sentence.t) (c : cell) :
  sound_sentence truth x → c ∈ truth → sound_sentence truth (Sentence.mark_mine x c).
Proof.
  intros Hx Hc. pose proof (strike_mines_step c ∅ x) as Hs.
  rewrite !strike_mines_empty in Hs.
  unfold Sentence.mark_mine in *. case_decide; [|done].
  rewrite Hs. apply sound_sentence_strike_mines; [set_solver|done].
Qed.

Lemma sound_sentence_mark_safe (truth : gset cell) (x : Sentence.t) (c : cell) :
  sound_sentence truth x → c ∉ truth → sound_sentence truth (Sentence.mark_safe x c).
Proof.
  intros Hx Hc. pose proof (strike_safes_step c ∅ x) as Hs.
  rewrite !strike_safes_empty in Hs.
  unfold Sentence.mark_safe in *. case_decide; [|done].
  rewrite Hs. apply sound_sentence_strike_safes; [set_solver|done].
Qed.

(** X2: a true sentence stays true when one of its mines is marked as a
    mine and when a cell without a mine is marked as safe; marked the wrong
    way round, a cell of the sentence makes it false. *)
Theorem sentence_marks_keep_truth (truth : gset cell) (x : Sentence.t) (c : cell) :
  sound_sentence truth x →
  (c ∈ truth → sound_sentence truth (Sentence.mark_mine x c)) ∧
  (c ∉ truth → sound_sentence truth (Sentence.mark_safe x c)) ∧
  (c ∈ Sentence.cells x → c ∉ truth → ¬ sound_sentence truth (Sentence.mark_mine x c)) ∧
  (c ∈ Sentence.cells x → c ∈ truth → ¬ sound_sentence truth (Sentence.mark_safe x c)).
Proof.
  intros Hx. split; [|split; [|split]].
  - by apply sound_sentence_mark_mine.
  - by apply sound_sentence_mark_safe.
  - intros Hin Hc Hbad. unfold Sentence.mark_mine in Hbad.
    rewrite decide_True in Hbad by done. unfold sound_sentence in *.
    cbn [Sentence.cells Sentence.count] in Hbad.
    assert ((Sentence.cells x ∖ {[c]}) ∩ truth = Sentence.cells x ∩ truth) as Heq
      by set_solver.
    rewrite Heq in Hbad. lia.
  - intros Hin Hc Hbad. unfold Sentence.mark_safe in Hbad.
    rewrite decide_True in Hbad by done. unfold sound_sentence in *.
    cbn [Sentence.cells Sentence.count] in Hbad.
    assert (Sentence.cells x ∩ truth = {[c]} ∪ (Sentence.cells x ∖ {[c]}) ∩ truth) as Heq.
    { apply set_eq. intros y. destruct (decide (y = c)); set_solver. }
    assert (size (Sentence.cells x ∩ truth)
            = S (size ((Sentence.cells x ∖ {[c]}) ∩ truth))) as Hsz.
    { rewrite Heq at 1. rewrite size_union; [|set_solver]. by rewrite size_singleton. }
    unfold len in *. lia.
Qed.

Lemma sentence_marks_keep_truth_witness :
  sound_sentence ex_truth (Sentence.make {[ (0,1); (1,0) ]} 1) ∧
  ((0,1) ∈ ex_truth →
   sound_sentence ex_truth (Sentence.mark_mine (Sentence.make {[ (0,1); (1,0) ]} 1) (0,1))) ∧
  ((0,1) ∉ ex_truth →
   sound_sentence ex_truth (Sentence.mark_safe (Sentence.make {[ (0,1); (1,0) ]} 1) (0,1))) ∧
  ((0,1) ∈ Sentence.cells (Sentence.make {[ (0,1); (1,0) ]} 1) → (0,1) ∉ ex_truth →
   ¬ sound_sentence ex_truth (Sentence.mark_mine (Sentence.make {[ (0,1); (1,0) ]} 1) (0,1))) ∧
  ((0,1) ∈ Sentence.cells (Sentence.make {[ (0,1); (1,0) ]} 1) → (0,1) ∈ ex_truth →
   ¬ sound_sentence ex_truth (Sentence.mark_safe (Sentence.make {[ (0,1); (1,0) ]} 1) (0,1))).
Proof.
  assert (sound_sentence ex_truth (Sentence.make {[ (0,1); (1,0) ]} 1)) as Hs
    by (vm_compute; reflexivity).
  split; [exact Hs|].
  apply (sentence_marks_keep_truth ex_truth (Sentence.make {[ (0,1); (1,0) ]} 1) (0,1) Hs).
Defined.

(** * Further properties of marking *)

(** X3: the loops that mark the cells of a set give the same store in
    whatever order, and however often, the cells come. *)
Theorem marking_order_irrelevant (l1 l2 : list cell) (self : t) :
  (∀ c, c ∈ l1 ↔ c ∈ l2) →
  for_ l1 mark_mine self = for_ l2 mark_mine self ∧
  for_ l1 mark_safe self = for_ l2 mark_safe self.
Proof.
  intros H. rewrite !for_mark_mine, !for_mark_safe.
  assert (list_to_set l1 = (list_to_set l2 : gset cell)) as -> by set_solver.
  done.
Qed.

Lemma marking_order_irrelevant_witness :
  (∀ c : cell, c ∈ [ (0,1); (1,1) ] ↔ c ∈ [ (1,1); (0,1); (1,1) ]) ∧
  for_ [ (0,1); (1,1) ] mark_mine ex_closure
    = for_ [ (1,1); (0,1); (1,1) ] mark_mine ex_closure ∧
  for_ [ (0,1); (1,1) ] mark_safe ex_closure
    = for_ [ (1,1); (0,1); (1,1) ] mark_safe ex_closure.
Proof.
  assert (∀ c : cell, c ∈ [ (0,1); (1,1) ] ↔ c ∈ [ (1,1); (0,1); (1,1) ]) as H
    by set_solver.
  split; [exact H|].
  apply (marking_order_irrelevant [ (0,1); (1,1) ] [ (1,1); (0,1); (1,1) ] ex_closure H).
Defined.

(** X4: [mark_mine] returns; afterwards the cell is a known mine and no
    sentence mentions it.  Every sentence has lost that cell and nothing
    else, with its count lowered by one exactly when it held the cell; no
    sentence is added or dropped, and moves made and safes are untouched. *)
Theorem mark_mine_effect (c : cell) (self : t) :
  ∃ self', mark_mine c self = Return tt self' ∧
    mines self' = mines self ∪ {[c]} ∧ safes self' = safes self ∧
    moves_made self' = moves_made self ∧
    height self' = height self ∧ width self' = width self ∧
    (∀ x, x ∈ knowledge self' → c ∉ Sentence.cells x) ∧
    Forall2 (λ x' x,
               Sentence.cells x' = Sentence.cells x ∖ {[c]} ∧
               Sentence.count x' =
                 Sentence.count x - (if decide (c ∈ Sentence.cells x) then 1 else 0))
            (knowledge self') (knowledge self).
Proof.
  exists (mark_mines_all {[c]} self). split; [apply mark_mine_run|].
  repeat (split; [reflexivity|]).
  cbn [mark_mines_all knowledge set_knowledge set_mines]. split.
  - intros x Hx. apply list_elem_of_In, in_map_iff in Hx as (y & <- & _).
    unfold strike_mines; cbn [Sentence.cells]. set_solver.
  - apply Forall2_fmap_l, Forall_Forall2_diag, Forall_forall. intros x _.
    unfold strike_mines; cbn [Sentence.cells Sentence.count]. split; [done|].
    case_decide.
    + assert (Sentence.cells x ∩ {[c]} = {[c]}) as -> by set_solver.
      unfold len. by rewrite size_singleton.
    + assert (Sentence.cells x ∩ {[c]} = ∅) as -> by set_solver.
      unfold len. by rewrite size_empty.
Qed.

(** X5: [mark_safe] returns; afterwards the cell is known safe and no
    sentence mentions it.  Every sentence has lost that cell and nothing
    else, with its count as it was; no sentence is added or dropped, and
    moves made and mines are untouched. *)
Theorem mark_safe_effect (c : cell) (self : t) :
  ∃ self', mark_safe c self = Return tt self' ∧
    safes self' = safes self ∪ {[c]} ∧ mines self' = mines self ∧
    moves_made self' = moves_made self ∧
    height self' = height self ∧ width self' = width self ∧
    (∀ x, x ∈ knowledge self' → c ∉ Sentence.cells x) ∧
    Forall2 (λ x' x,
               Sentence.cells x' = Sentence.cells x ∖ {[c]} ∧
               Sentence.count x' = Sentence.count x)
            (knowledge self') (knowledge self).
Proof.
  exists (mark_safes_all {[c]} self). split; [apply mark_safe_run|].
  repeat (split; [reflexivity|]).
  cbn [mark_safes_all knowledge set_knowledge set_safes]. split.
  - intros x Hx. apply list_elem_of_In, in_map_iff in Hx as (y & <- & _).
    unfold strike_safes; cbn [Sentence.cells]. set_solver.
  - apply Forall2_fmap_l, Forall_Forall2_diag, Forall_forall. intros x _.
    unfold strike_safes; cbn [Sentence.cells Sentence.count]. done.
Qed.

Lemma mark_mines_all_twice (a b : gset cell) (self : t) :
  mark_mines_all b (mark_mines_all a self) = mark_mines_all (a ∪ b) self.
Proof.
  unfold mark_mines_all. apply t_eq; cbn [height width moves_made mines safes knowledge
    set_knowledge set_mines]; try done; [set_solver|].
  rewrite map_map. apply map_ext. intros x.
  unfold strike_mines. apply sentence_eq; cbn [Sentence.cells Sentence.count]; [set_solver|].
  assert (Sentence.cells x ∩ (a ∪ b)
          = (Sentence.cells x ∩ a) ∪ ((Sentence.cells x ∖ a) ∩ b)) as Hsplit.
  { apply set_eq. intros y. destruct (decide (y ∈ a)); set_solver. }
  assert (size (Sentence.cells x ∩ (a ∪ b))
          = (size (Sentence.cells x ∩ a) + size ((Sentence.cells x ∖ a) ∩ b))%nat) as Hsz.
  { rewrite Hsplit at 1. apply size_union. set_solver. }
  unfold len. rewrite Hsz. lia.
Qed.

Lemma mark_safes_all_twice (a b : gset cell) (self : t) :
  mark_safes_all b (mark_safes_all a self) = mark_safes_all (a ∪ b) self.
Proof.
  unfold mark_safes_all. apply t_eq; cbn [height width moves_made mines safes knowledge
    set_knowledge set_safes]; try done; [set_solver|].
  rewrite map_map. apply map_ext. intros x.
  unfold strike_safes. apply sentence_eq; cbn [Sentence.cells Sentence.count]; [set_solver|done].
Qed.

Lemma mark_mine_then {A} (c : cell) (m : M A) (self : t) :
  (mark_mine c ;; m) self = m (mark_mines_all {[c]} self).
Proof. unfold bind. by rewrite mark_mine_run. Qed.

Lemma mark_safe_then {A} (c : cell) (m : M A) (self : t) :
  (mark_safe c ;; m) self = m (mark_safes_all {[c]} self).
Proof. unfold bind. by rewrite mark_safe_run. Qed.

(** X6: two [mark_mine] calls, or two [mark_safe] calls, give the same store
    in either order, and a call repeated changes nothing more.  [mark_mine]
    and [mark_safe] on two different cells can be swapped as well; on one
    and the same cell they cannot, as soon as a sentence mentions it: the
    call made first decides whether the counts go down. *)
Theorem marks_commute (c c' : cell) (self : t) :
  (mark_mine c ;; mark_mine c') self = (mark_mine c' ;; mark_mine c) self ∧
  (mark_safe c ;; mark_safe c') self = (mark_safe c' ;; mark_safe c) self ∧
  (mark_mine c ;; mark_mine c) self = mark_mine c self ∧
  (mark_safe c ;; mark_safe c) self = mark_safe c self ∧
  (c ≠ c' → (mark_mine c ;; mark_safe c') self = (mark_safe c' ;; mark_mine c) self) ∧
  ((∃ x, x ∈ knowledge self ∧ c ∈ Sentence.cells x) →
   (mark_mine c ;; mark_safe c) self ≠ (mark_safe c ;; mark_mine c) self).
Proof.
  rewrite !mark_mine_then, !mark_safe_then, !mark_mine_run, !mark_safe_run.
  rewrite !mark_mines_all_twice, !mark_safes_all_twice.
  split; [by rewrite (union_comm_L {[c]} {[c']})|].
  split; [by rewrite (union_comm_L {[c]} {[c']})|].
  split; [by rewrite union_idemp_L|]. split; [by rewrite union_idemp_L|].
  split.
  - intros Hne. f_equal. unfold mark_safes_all, mark_mines_all.
    apply t_eq; cbn [height width moves_made mines safes knowledge
      set_knowledge set_mines set_safes]; try done.
    rewrite !map_map. apply map_ext. intros x.
    unfold strike_safes, strike_mines.
    apply sentence_eq; cbn [Sentence.cells Sentence.count]; [set_solver|].
    assert ((Sentence.cells x ∖ {[c']}) ∩ {[c]} = Sentence.cells x ∩ {[c]}) as ->
      by set_solver.
    done.
  - intros (x & Hx & Hc) Heq. inversion Heq as [Hk]. clear Heq.
    rewrite !map_map in Hk.
    apply list_elem_of_In in Hx.
    pose proof (proj1 map_ext_in_iff Hk x Hx) as Hxx.
    unfold strike_safes, strike_mines in Hxx. inversion Hxx as [Hcount].
    assert (Sentence.cells x ∩ {[c]} = {[c]}) as E1 by set_solver.
    assert ((Sentence.cells x ∖ {[c]}) ∩ {[c]} = ∅) as E2 by set_solver.
    rewrite E1, E2 in Hcount. unfold len in Hcount.
    rewrite size_singleton, size_empty in Hcount. lia.
Qed.

(** * Further properties of the neighbours and the moves *)

Lemma size_neighbouring (h w : Z) (c : cell) :
  (size (neighbouring h w c ∖ {[c]}) ≤ 8)%nat.
Proof.
  assert (neighbouring h w c ∖ {[c]} ⊆ list_to_set (window c) ∖ {[c]}) as Hsub.
  { intros x Hx. apply elem_of_difference in Hx as [Hx Hne].
    apply elem_of_neighbouring in Hx as [Hx _].
    apply elem_of_difference. split; [by apply elem_of_list_to_set|done]. }
  apply subseteq_size in Hsub.
  assert (size (list_to_set (window c) ∖ {[c]} : gset cell) = 8%nat) as Hsz.
  { rewrite size_difference.
    - rewrite size_list_to_set by apply NoDup_window.
      rewrite length_window, size_singleton. done.
    - apply singleton_subseteq_l, elem_of_list_to_set, elem_of_window. lia. }
  lia.
Qed.

(** X7: for a cell of the board [get_neighbouring_cells] returns, without
    touching the store, the cells of the board next to it (one step away in
    row, column or both), never the cell itself, at most eight of them, and
    [get_hidden_neighbouring_cells] returns those of them that are not moves
    made.  For a cell outside the board both raise [KeyError]. *)
Theorem get_neighbouring_cells_adjacent (c : cell) (self : t) :
  (on_board (height self) (width self) c ∧
   ∃ nb, get_neighbouring_cells c self = Return nb self ∧
         get_hidden_neighbouring_cells c self = Return (nb ∖ moves_made self) self ∧
         (∀ x, x ∈ nb ↔ x ≠ c ∧ on_board (height self) (width self) x ∧
                        -1 ≤ x.1 - c.1 ≤ 1 ∧ -1 ≤ x.2 - c.2 ≤ 1) ∧
         (size nb ≤ 8)%nat)
  ∨ (¬ on_board (height self) (width self) c ∧
     get_neighbouring_cells c self = Raise KeyError self ∧
     get_hidden_neighbouring_cells c self = Raise KeyError self).
Proof.
  rewrite get_hidden_neighbouring_cells_run, get_neighbouring_cells_run.
  destruct (decide (on_board (height self) (width self) c)) as [Hon|Hoff]; [left|right].
  - split; [done|]. eexists. split; [done|]. split; [done|]. split.
    + intros x. rewrite elem_of_difference, elem_of_neighbouring, elem_of_window,
        elem_of_singleton. unfold on_board. intuition lia.
    + apply size_neighbouring.
  - done.
Qed.

(** X8: [make_safe_move] leaves the store as it is and returns a cell that
    is known safe and is not a move made, or [None], and then every safe
    cell is a move made. *)
Theorem make_safe_move_unexplored (pick : nat) (self : t) :
  ∃ r, make_safe_move pick self = Return r self ∧
       match r with
       | Some c => c ∈ safes self ∧ c ∉ moves_made self
       | None => safes self ⊆ moves_made self
       end.
Proof.
  unfold make_safe_move, bind, get, ret.
  set (safe_cells := safes self ∖ moves_made self).
  assert (len safe_cells > 0 ↔ safe_cells ≠ ∅) as Hlen.
  { rewrite <- len_empty_iff. unfold len. lia. }
  destruct (decide (len safe_cells > 0)) as [Hl|Hl].
  - destruct (choose_elem pick safe_cells) as (c & Hc & Hin); [by apply Hlen|].
    exists (Some c). split; [by rewrite Hc|]. unfold safe_cells in Hin. set_solver.
  - exists None. split; [done|].
    assert (safe_cells = ∅) as He by (apply dec_stable; by rewrite <- Hlen).
    unfold safe_cells in He. intros x Hx.
    destruct (decide (x ∈ moves_made self)); [done|]. set_solver.
Qed.

(** * Further properties of the board *)

(** X9: on a board as the constructor builds it, [nearby_mines] is the
    number of mines among the cells next to the given cell, the cell itself
    not counted; it lies between zero and eight. *)
Theorem nearby_mines_adjacent_mines (g : Minesweeper.t) (c : cell) :
  Minesweeper.wf g →
  ∃ around : gset cell,
    (∀ x, x ∈ around ↔ x ≠ c ∧ -1 ≤ x.1 - c.1 ≤ 1 ∧ -1 ≤ x.2 - c.2 ≤ 1 ∧
                       x ∈ Minesweeper.mine_set g) ∧
    Minesweeper.nearby_mines g c = len around ∧
    0 ≤ Minesweeper.nearby_mines g c ≤ 8.
Proof.
  intros _.
  exists ((neighbouring (Minesweeper.height g) (Minesweeper.width g) c ∖ {[c]})
          ∩ Minesweeper.mine_set g).
  split; [|split].
  - intros x. rewrite elem_of_intersection, elem_of_difference, elem_of_neighbouring,
      elem_of_window, elem_of_singleton, elem_of_mine_set.
    unfold on_board. intuition lia.
  - apply nearby_mines_count.
  - rewrite nearby_mines_count. unfold len.
    pose proof (size_neighbouring (Minesweeper.height g) (Minesweeper.width g) c).
    assert (size ((neighbouring (Minesweeper.height g) (Minesweeper.width g) c ∖ {[c]})
                  ∩ Minesweeper.mine_set g)
            ≤ size (neighbouring (Minesweeper.height g) (Minesweeper.width g) c ∖ {[c]}))%nat
      by (apply subseteq_size; set_solver).
    lia.
Qed.

Lemma nearby_mines_adjacent_mines_witness :
  Minesweeper.wf ex_board_mid ∧
  ∃ around : gset cell,
    (∀ x, x ∈ around ↔ x ≠ (0,0) ∧ -1 ≤ x.1 - (0,0).1 ≤ 1 ∧ -1 ≤ x.2 - (0,0).2 ≤ 1 ∧
                       x ∈ Minesweeper.mine_set ex_board_mid) ∧
    Minesweeper.nearby_mines ex_board_mid (0,0) = len around ∧
    0 ≤ Minesweeper.nearby_mines ex_board_mid (0,0) ≤ 8.
Proof.
  assert (Minesweeper.wf ex_board_mid) as Hwf.
  { split; [reflexivity|]. repeat constructor. }
  split; [exact Hwf|].
  apply (nearby_mines_adjacent_mines ex_board_mid (0,0) Hwf).
Defined.

(** * What the closure and the observations keep *)

Lemma advances_refl self : advances self self.
Proof.
  split; [done|]. split; [done|]. split; [done|]. split; [done|]. split; [done|].
  split; [done|]. intros x Hx. by exists x.
Qed.

Lemma advances_trans s1 s2 s3 : advances s1 s2 → advances s2 s3 → advances s1 s3.
Proof.
  intros (Hh & Hw & Hmv & Hm & Hs & Hl & Hk) (Hh' & Hw' & Hmv' & Hm' & Hs' & Hl' & Hk').
  split; [congruence|]. split; [congruence|]. split; [congruence|].
  split; [set_solver|]. split; [set_solver|]. split; [lia|].
  intros x3 H3. destruct (Hk' x3 H3) as (x2 & H2 & Hsub2).
  destruct (Hk x2 H2) as (x1 & H1 & Hsub1). exists x1. split; [done|set_solver].
Qed.

Lemma advances_mark_mines_all hit self : advances self (mark_mines_all hit self).
Proof.
  unfold advances, mark_mines_all.
  cbn [height width moves_made mines safes knowledge set_knowledge set_mines].
  split; [done|]. split; [done|]. split; [done|].
  split; [set_solver|]. split; [done|]. split; [by rewrite length_map|].
  intros x' Hx'. apply list_elem_of_In, in_map_iff in Hx' as (x & <- & Hx).
  exists x. split; [by apply list_elem_of_In|].
  unfold strike_mines. cbn [Sentence.cells]. set_solver.
Qed.

Lemma advances_mark_safes_all hit self : advances self (mark_safes_all hit self).
Proof.
  unfold advances, mark_safes_all.
  cbn [height width moves_made mines safes knowledge set_knowledge set_safes].
  split; [done|]. split; [done|]. split; [done|].
  split; [done|]. split; [set_solver|]. split; [by rewrite length_map|].
  intros x' Hx'. apply list_elem_of_In, in_map_iff in Hx' as (x & <- & Hx).
  exists x. split; [by apply list_elem_of_In|].
  unfold strike_safes. cbn [Sentence.cells]. set_solver.
Qed.

Lemma advances_fire x flag self : advances self (fire x flag self).2.
Proof.
  unfold fire.
  destruct (Sentence.known_mines x), (Sentence.known_safes x); cbn [fst snd].
  - eapply advances_trans; [apply advances_mark_mines_all|apply advances_mark_safes_all].
  - apply advances_mark_mines_all.
  - apply advances_mark_safes_all.
  - apply advances_refl.
Qed.

Lemma list_remove_length (x : Sentence.t) (l k : list Sentence.t) :
  list_remove x l = Some k → length l = S (length k).
Proof.
  revert k. induction l as [|y l IH]; intros k H; [discriminate|].
  cbn [list_remove] in H. destruct (Sentence.eqb y x).
  - by inversion H.
  - destruct (list_remove x l) as [k'|]; [|discriminate]. inversion H; subst.
    cbn [length]. f_equal. by apply IH.
Qed.

Lemma advances_remove x k self :
  list_remove x (knowledge self) = Some k → advances self (set_knowledge k self).
Proof.
  intros H. unfold advances. cbn [height width moves_made mines safes knowledge set_knowledge].
  split; [done|]. split; [done|]. split; [done|]. split; [done|]. split; [done|].
  split; [apply list_remove_length in H; lia|].
  intros y Hy. exists y. split; [by apply (list_remove_subset x _ k)|done].
Qed.

Lemma advances_scan rest :
  ∀ flag self, advances self (store_of (scan rest flag self)).
Proof.
  induction rest as [|x rest IH]; intros flag self; [apply advances_refl|].
  destruct (decide (Sentence.cells x = ∅)) as [Hx|Hx].
  - rewrite scan_cons_empty by done.
    destruct (list_remove x (knowledge self)) as [k|] eqn:E; cbn [store_of];
      [by apply (advances_remove x)|apply advances_refl].
  - rewrite scan_cons_fire by done.
    eapply advances_trans; [apply advances_fire|apply IH].
Qed.

Lemma advances_apply_knowledge depth :
  ∀ self, advances self (store_of (apply_knowledge depth self)).
Proof.
  induction depth as [|depth IH]; intros self; [apply advances_refl|].
  rewrite apply_knowledge_S.
  pose proof (advances_scan (knowledge self) false self) as Hscan.
  destruct (scan (knowledge self) false self) as [[] mid|e mid]; cbn [store_of] in *;
    [|done|done].
  eapply advances_trans; [exact Hscan|apply IH].
Qed.

(** X10: whether it returns or runs out of nesting, [apply_knowledge] only
    learns: the board size and the moves made are as before, no known mine
    and no known safe cell is forgotten, the knowledge list has not grown,
    and every sentence left has its cells among those of a sentence that was
    there before. *)
Theorem apply_knowledge_only_learns (depth : nat) (self : t) :
  height (store_of (apply_knowledge depth self)) = height self ∧
  width (store_of (apply_knowledge depth self)) = width self ∧
  moves_made (store_of (apply_knowledge depth self)) = moves_made self ∧
  mines self ⊆ mines (store_of (apply_knowledge depth self)) ∧
  safes self ⊆ safes (store_of (apply_knowledge depth self)) ∧
  (length (knowledge (store_of (apply_knowledge depth self)))
   ≤ length (knowledge self))%nat ∧
  ∀ x', x' ∈ knowledge (store_of (apply_knowledge depth self)) →
        ∃ x, x ∈ knowledge self ∧ Sentence.cells x' ⊆ Sentence.cells x.
Proof. apply advances_apply_knowledge. Qed.

(** X11: [apply_knowledge] derives true facts only.  If every sentence is
    true of a set of mines, every known mine is one of them and no known
    safe cell or move made is, then the same holds of the store the call
    leaves, returned or raised. *)
Theorem apply_knowledge_keeps_truth (h w : Z) (truth : gset cell)
        (depth : nat) (self : t) :
  sound h w truth self →
  sound h w truth (store_of (apply_knowledge depth self)) ∧
  mines (store_of (apply_knowledge depth self)) ⊆ truth ∧
  safes (store_of (apply_knowledge depth self)) ## truth.
Proof.
  intros Hs. pose proof (sound_apply_knowledge h w truth depth self Hs) as H.
  split; [done|]. by destruct H as (_ & _ & ? & ? & _).
Qed.

Lemma apply_knowledge_keeps_truth_witness :
  sound 3 3 ex_truth ex_closure ∧
  sound 3 3 ex_truth (store_of (apply_knowledge 5 ex_closure)) ∧
  mines (store_of (apply_knowledge 5 ex_closure)) ⊆ ex_truth ∧
  safes (store_of (apply_knowledge 5 ex_closure)) ## ex_truth.
Proof.
  assert (sound 3 3 ex_truth ex_closure) as Hs.
  { unfold sound, ex_closure. cbn [height width mines safes moves_made knowledge].
    repeat split; try done; try set_solver.
    repeat constructor; vm_compute; reflexivity. }
  split; [exact Hs|].
  apply (apply_knowledge_keeps_truth 3 3 ex_truth 5 ex_closure Hs).
Defined.

(** X12: every sentence [generate_new_knowledge] returns has a cell, and its
    cells are among those of a sentence of the list; it is true of every set
    of mines of which the sentences of the list are true. *)
Theorem generate_new_knowledge_sound (self : t) :
  ∃ new_sentences,
    generate_new_knowledge self = Return new_sentences self ∧
    (∀ x, x ∈ new_sentences →
          Sentence.cells x ≠ ∅ ∧
          ∃ b, b ∈ knowledge self ∧ Sentence.cells x ⊆ Sentence.cells b) ∧
    (∀ truth, Forall (sound_sentence truth) (knowledge self) →
              Forall (sound_sentence truth) new_sentences).
Proof.
  exists (subset_rule (knowledge self)). split; [apply generate_new_knowledge_run|].
  split; [|intros truth; apply sound_subset_rule].
  intros x Hx. apply elem_of_subset_rule in Hx as (i & j & a & b & _ & Hj & _ & _ & Hd & ->).
  split; [done|]. exists b. split; [by eapply list_elem_of_lookup_2|].
  cbn [Sentence.cells]. set_solver.
Qed.

Lemma choose_Some (pick : nat) (s : gset cell) (c : cell) :
  choose pick s = Some c → c ∈ s.
Proof.
  unfold choose. intros H. apply elem_of_elements. by eapply list_elem_of_lookup_2.
Qed.

Lemma make_safe_move_Some (pick : nat) (self : t) (c : cell) :
  make_safe_move pick self = Return (Some c) self →
  c ∈ safes self ∧ c ∉ moves_made self.
Proof.
  unfold make_safe_move, bind, get, ret. case_decide; [|discriminate].
  intros Hret. inversion Hret as [Hc]. apply choose_Some in Hc. set_solver.
Qed.

Lemma make_random_move_Some (pick : nat) (self : t) (c : cell) :
  make_random_move pick self = Return (Some c) self →
  (c ∉ safes self) ∧ (c ∉ mines self) ∧ (c ∉ moves_made self).
Proof.
  unfold make_random_move, bind, get, ret. case_decide; [|discriminate].
  intros Hret. inversion Hret as [Hc]. apply choose_Some in Hc.
  apply elem_of_difference in Hc as [_ Hc]. set_solver.
Qed.

(** The store an observation leaves, seen from the store in which the
    cell has been noted (and, on the board, the new sentence appended):
    nothing known is lost, and every sentence has its cells among those of
    a sentence of that store. *)
Lemma add_knowledge_learns (depth : nat) (c : cell) (count : Z) (self : t) :
  ∃ base,
    (base = noted c self ∨
     (on_board (height self) (width self) c ∧
      base = observed c count (neighbouring (height self) (width self) c ∖ {[c]}) self)) ∧
    height (store_of (add_knowledge depth c count self)) = height base ∧
    width (store_of (add_knowledge depth c count self)) = width base ∧
    moves_made (store_of (add_knowledge depth c count self)) = moves_made base ∧
    mines base ⊆ mines (store_of (add_knowledge depth c count self)) ∧
    safes base ⊆ safes (store_of (add_knowledge depth c count self)) ∧
    ∀ x', x' ∈ knowledge (store_of (add_knowledge depth c count self)) →
          ∃ x, x ∈ knowledge base ∧ Sentence.cells x' ⊆ Sentence.cells x.
Proof.
  destruct (decide (on_board (height self) (width self) c)) as [Hon|Hoff].
  - set (base := observed c count (neighbouring (height self) (width self) c ∖ {[c]}) self).
    exists base. split; [right; done|]. rewrite run_add_knowledge_on by done. fold base.
    pose proof (advances_apply_knowledge depth base) as (Hh & Hw & Hmv & Hm & Hs & _ & Hk).
    destruct (apply_knowledge depth base) as [[] closed|e closed]; cbn [store_of] in *.
    + cbn [set_knowledge height width moves_made mines safes knowledge].
      do 5 (split; [done|]). intros x' Hx'. apply elem_of_app in Hx' as [Hx'|Hx'].
      * by apply Hk.
      * apply elem_of_subset_rule in Hx'
          as (i & j & a & b & _ & Hj & _ & _ & _ & ->).
        destruct (Hk b) as (x & Hx & Hsub); [by eapply list_elem_of_lookup_2|].
        exists x. split; [done|]. cbn [Sentence.cells]. set_solver.
    + done.
  - exists (noted c self). split; [by left|]. rewrite run_add_knowledge_off by done.
    cbn [store_of]. do 5 (split; [done|]). intros x Hx. by exists x.
Qed.

Lemma noted_or_observed (c : cell) (count : Z) (self base : t) :
  base = noted c self ∨
  (on_board (height self) (width self) c ∧
   base = observed c count (neighbouring (height self) (width self) c ∖ {[c]}) self) →
  height base = height self ∧ width base = width self ∧
  moves_made base = moves_made self ∪ {[c]} ∧
  mines base = mines self ∧ safes base = safes self ∪ {[c]} ∧
  ∀ x, x ∈ knowledge base →
       (∃ y, y ∈ knowledge self ∧ Sentence.cells x = Sentence.cells y ∖ {[c]}) ∨
       (∀ z, z ∈ Sentence.cells x →
             on_board (height self) (width self) z ∧ z ∉ moves_made self ∪ {[c]}).
Proof.
  assert (∀ x, x ∈ map (strike_safes {[c]}) (knowledge self) →
               ∃ y, y ∈ knowledge self ∧ Sentence.cells x = Sentence.cells y ∖ {[c]}) as Hmap.
  { intros x Hx. apply list_elem_of_In, in_map_iff in Hx as (y & <- & Hy).
    exists y. split; [by apply list_elem_of_In|done]. }
  intros [->|[Hon ->]]; cbn [noted observed height width moves_made mines safes knowledge];
    do 5 (split; [done|]); intros x Hx.
  - left. by apply Hmap.
  - apply elem_of_app in Hx as [Hx|Hx]; [left; by apply Hmap|]. right.
    case_decide; [by apply elem_of_nil in Hx|].
    apply list_elem_of_singleton in Hx as ->. cbn [Sentence.cells]. intros z Hz.
    apply elem_of_difference in Hz as [Hz Hnot].
    apply elem_of_difference in Hz as [Hz _].
    apply elem_of_neighbouring in Hz as [_ Hz]. done.
Qed.

(** X13: whatever the outcome of [add_knowledge], the store it leaves has
    the observed cell as a move made (and no other new move) and as a safe
    cell, has lost no known mine and no known safe cell, and mentions the
    cell in no sentence; so neither [make_safe_move] nor [make_random_move]
    offers that cell afterwards. *)
Theorem add_knowledge_records_move (depth : nat) (c : cell) (count : Z) (self : t) :
  moves_made (store_of (add_knowledge depth c count self)) = moves_made self ∪ {[c]} ∧
  c ∈ safes (store_of (add_knowledge depth c count self)) ∧
  safes self ⊆ safes (store_of (add_knowledge depth c count self)) ∧
  mines self ⊆ mines (store_of (add_knowledge depth c count self)) ∧
  (∀ x, x ∈ knowledge (store_of (add_knowledge depth c count self)) →
        c ∉ Sentence.cells x) ∧
  (∀ pick, make_safe_move pick (store_of (add_knowledge depth c count self))
           ≠ Return (Some c) (store_of (add_knowledge depth c count self))) ∧
  (∀ pick, make_random_move pick (store_of (add_knowledge depth c count self))
           ≠ Return (Some c) (store_of (add_knowledge depth c count self))).
Proof.
  destruct (add_knowledge_learns depth c count self)
    as (base & Hbase & _ & _ & Hmv & Hm & Hs & Hk).
  destruct (noted_or_observed c count self base Hbase)
    as (_ & _ & Hbmv & Hbm & Hbs & Hbk).
  set (self' := store_of (add_knowledge depth c count self)) in *.
  assert (moves_made self' = moves_made self ∪ {[c]}) as Hmoves by congruence.
  split; [done|]. split; [set_solver|]. split; [set_solver|]. split; [set_solver|].
  split; [|split].
  - intros x' Hx' Hc. destruct (Hk x' Hx') as (x & Hx & Hsub).
    destruct (Hbk x Hx) as [(y & _ & Hy)|Hnew]; [set_solver|].
    destruct (Hnew c) as [_ Hnot]; set_solver.
  - intros pick H. apply make_safe_move_Some in H as [_ H]. set_solver.
  - intros pick H. apply make_random_move_Some in H as (_ & _ & H). set_solver.
Qed.

Lemma tidy_learns (h w : Z) (base self' : t) :
  tidy h w base →
  height self' = height base → width self' = width base →
  moves_made self' = moves_made base →
  safes base ⊆ safes self' →
  (∀ x', x' ∈ knowledge self' →
         ∃ x, x ∈ knowledge base ∧ Sentence.cells x' ⊆ Sentence.cells x) →
  tidy h w self'.
Proof.
  intros (Hh & Hw & Hms & Hk) Hh' Hw' Hmv Hs Hk'.
  split; [congruence|]. split; [congruence|]. split; [set_solver|].
  intros x' z Hx' Hz. destruct (Hk' x' Hx') as (x & Hx & Hsub).
  destruct (Hk x z Hx) as [Hon Hnot]; [set_solver|]. split; [done|]. by rewrite Hmv.
Qed.

Lemma tidy_exec (h w : Z) (o : op) (self : t) :
  tidy h w self → tidy h w (exec o self).
Proof.
  intros Ht. destruct o as [depth c count|c|c|pick|pick]; cbn [exec].
  - destruct (add_knowledge_learns depth c count self)
      as (base & Hbase & Hh & Hw & Hmv & _ & Hs & Hk).
    apply (tidy_learns h w base); try done.
    destruct (noted_or_observed c count self base Hbase)
      as (Hbh & Hbw & Hbmv & _ & Hbs & Hbk).
    destruct Ht as (Hh0 & Hw0 & Hms & Hk0).
    split; [congruence|]. split; [congruence|]. split; [set_solver|].
    intros x z Hx Hz. destruct (Hbk x Hx) as [(y & Hy & Hcells)|Hnew].
    + rewrite Hcells in Hz. apply elem_of_difference in Hz as [Hz Hne].
      destruct (Hk0 y z Hy Hz) as [Hon Hnot]. split; [done|]. set_solver.
    + destruct (Hnew z Hz) as [Hon Hnot]. split; [congruence|]. by rewrite Hbmv.
  - rewrite mark_mine_run. cbn [store_of].
    destruct (advances_mark_mines_all {[c]} self) as (? & ? & ? & _ & ? & _ & ?).
    by apply (tidy_learns h w self).
  - rewrite mark_safe_run. cbn [store_of].
    destruct (advances_mark_safes_all {[c]} self) as (? & ? & ? & _ & ? & _ & ?).
    by apply (tidy_learns h w self).
  - by rewrite store_of_make_safe_move.
  - by rewrite store_of_make_random_move.
Qed.

(** X14: in every store the agent can be brought to from its initial one,
    by whatever public operations with whatever arguments, the board size is
    the initial one, every move made is a known safe cell, and the sentences
    mention cells of the board only, none of them a move made. *)
Theorem public_operations_keep_tidy (h w : Z) (ops : list op) :
  height (run ops (init h w)) = h ∧ width (run ops (init h w)) = w ∧
  moves_made (run ops (init h w)) ⊆ safes (run ops (init h w)) ∧
  ∀ x c, x ∈ knowledge (run ops (init h w)) → c ∈ Sentence.cells x →
         on_board h w c ∧ c ∉ moves_made (run ops (init h w)).
Proof.
  assert (tidy h w (init h w)) as Hinit.
  { split; [done|]. split; [done|]. split; [done|]. intros x c Hx.
    by apply elem_of_nil in Hx. }
  revert Hinit. generalize (init h w). unfold run.
  induction ops as [|o ops IH]; intros self Ht; [exact Ht|].
  cbn [foldl]. apply IH. by apply tidy_exec.
Qed.

(** X15: in a game played truthfully on a board, the cell [make_safe_move]
    returns holds no mine and has not been played. *)
Theorem safe_move_is_safe (g : Minesweeper.t) (self : t) (pick : nat) (c : cell) :
  Minesweeper.wf g →
  reachable g self →
  make_safe_move pick self = Return (Some c) self →
  (c ∉ Minesweeper.mine_set g) ∧ (c ∉ moves_made self) ∧ c ∈ safes self.
Proof.
  intros _ Hr Hmove. apply reachable_sound in Hr as (_ & _ & _ & Hs & _ & _).
  apply make_safe_move_Some in Hmove as [Hin Hnot]. set_solver.
Qed.

Lemma safe_move_is_safe_witness :
  Minesweeper.wf ex_board_mid ∧
  reachable ex_board_mid (run ex_mid_ops (init 3 3)) ∧
  make_safe_move 0 (run ex_mid_ops (init 3 3))
    = Return (Some (0,2)) (run ex_mid_ops (init 3 3)) ∧
  ((0,2) ∉ Minesweeper.mine_set ex_board_mid) ∧
  ((0,2) ∉ moves_made (run ex_mid_ops (init 3 3))) ∧
  (0,2) ∈ safes (run ex_mid_ops (init 3 3)).
Proof.
  assert (Minesweeper.wf ex_board_mid) as Hwf.
  { split; [reflexivity|]. repeat constructor. }
  assert (reachable ex_board_mid (run ex_mid_ops (init 3 3))) as Hr.
  { apply reachable_run; [apply (reachable_init ex_board_mid)|apply ex_mid_truthful]. }
  assert (make_safe_move 0 (run ex_mid_ops (init 3 3))
          = Return (Some (0,2)) (run ex_mid_ops (init 3 3))) as Hmove
    by (vm_compute; reflexivity).
  split; [exact Hwf|]. split; [exact Hr|]. split; [exact Hmove|].
  apply (safe_move_is_safe ex_board_mid (run ex_mid_ops (init 3 3)) 0 (0,2) Hwf Hr Hmove).
Defined.

(** * The constructor of the board *)

Lemma foldl_append_const {A B} (v : A) (l : list B) (a : list A) :
  foldl (λ acc _, acc ++ [v]) a l = a ++ replicate (length l) v.
Proof.
  revert a. induction l as [|x l IH]; intros a; cbn [foldl length replicate].
  - by rewrite app_nil_r.
  - rewrite IH, <- app_assoc. done.
Qed.

Lemma length_range0 (n : Z) : length (range0 n) = Z.to_nat n.
Proof.
  unfold range0, range. rewrite length_map, length_seq. f_equal. lia.
Qed.

Lemma blank_replicate (h w : Z) :
  Game.blank h w = replicate (Z.to_nat h) (replicate (Z.to_nat w) false).
Proof.
  unfold Game.blank. rewrite (foldl_append_const false (range0 w) []).
  rewrite (foldl_append_const _ (range0 h) []). by rewrite !length_range0.
Qed.

Lemma index_nonneg {A} (l : list A) (i : Z) : 0 ≤ i → Game.index l i = l !! Z.to_nat i.
Proof. intros Hi. unfold Game.index. by rewrite decide_True. Qed.

Lemma index_None {A} (l : list A) (i : Z) :
  i < - Z.of_nat (length l) ∨ Z.of_nat (length l) ≤ i → Game.index l i = None.
Proof.
  intros Hi. unfold Game.index. case_decide.
  - apply lookup_ge_None. lia.
  - rewrite decide_False by lia. done.
Qed.

Lemma index_wrap {A} (l : list A) (i : Z) :
  - Z.of_nat (length l) ≤ i < 0 → Game.index l i = Game.index l (Z.of_nat (length l) + i).
Proof.
  intros Hi. unfold Game.index.
  rewrite decide_False by lia. rewrite decide_True by lia.
  rewrite (decide_True (P := 0 ≤ Z.of_nat (length l) + i)) by lia. done.
Qed.

Lemma board_at_set (h w : Z) (board : list (list bool)) (row : list bool) (i j a b : Z) :
  0 ≤ i → 0 ≤ j → 0 ≤ a → 0 ≤ b →
  board !! Z.to_nat i = Some row → (Z.to_nat j < length row)%nat →
  Minesweeper.board_at
    (Minesweeper.make h w (<[Z.to_nat i := <[Z.to_nat j := true]> row]> board)) a b
  = if decide ((a, b) = (i, j)) then true
    else Minesweeper.board_at (Minesweeper.make h w board) a b.
Proof.
  intros Hi Hj Ha Hb Hrow Hlen. unfold Minesweeper.board_at. cbn [Minesweeper.board].
  apply lookup_lt_Some in Hrow as Hlt.
  destruct (decide (a = i)) as [->|Hai].
  - rewrite list_lookup_insert_eq by done. rewrite Hrow. cbn [mbind option_bind].
    destruct (decide (b = j)) as [->|Hbj].
    + rewrite list_lookup_insert_eq by done. by rewrite decide_True.
    + rewrite list_lookup_insert_ne by lia. rewrite decide_False; [done|congruence].
  - rewrite list_lookup_insert_ne by lia. rewrite decide_False; [done|congruence].
Qed.

(** The placing loop on a field of the right shape whose [True] entries are
    the cells placed so far. *)
Lemma place_laid (h w n : Z) (draws : list (nat * nat)) :
  ∀ board placed,
    Minesweeper.wf (Minesweeper.make h w board) →
    (∀ c, c ∈ placed ↔
          on_board h w c ∧ Minesweeper.board_at (Minesweeper.make h w board) c.1 c.2 = true) →
    match Game.place draws h w n board placed with
    | Game.Built g =>
        Game.height g = h ∧ Game.width g = w ∧ Game.mines_found g = ∅ ∧
        len (Game.mines g) = n ∧ Minesweeper.wf (Game.as_board g) ∧
        ∀ c, c ∈ Game.mines g ↔
             on_board h w c ∧ Minesweeper.board_at (Game.as_board g) c.1 c.2 = true
    | Game.Raised e => e = Game.ValueError
    | Game.Pending => True
    end.
Proof.
  induction draws as [|[r1 r2] draws IH]; intros board placed Hwf Hplaced;
    cbn [Game.place]; case_decide as Hn; try done.
  unfold Game.randrange.
  destruct (decide (h ≤ 0)) as [|Hh]; [done|].
  destruct (decide (w ≤ 0)) as [|Hw]; [done|].
  set (i := Z.of_nat r1 `mod` h). set (j := Z.of_nat r2 `mod` w).
  assert (0 ≤ i < h) as Hi by (apply Z.mod_pos_bound; lia).
  assert (0 ≤ j < w) as Hj by (apply Z.mod_pos_bound; lia).
  destruct Hwf as [Hlen Hrows]. cbn [Minesweeper.board Minesweeper.height Minesweeper.width] in *.
  destruct (lookup_lt_is_Some_2 board (Z.to_nat i)) as [row Hrow]; [lia|].
  assert (length row = Z.to_nat w) as Hrowlen.
  { eapply Forall_forall in Hrows; [exact Hrows|]. by eapply list_elem_of_lookup_2. }
  destruct (lookup_lt_is_Some_2 row (Z.to_nat j)) as [b Hb]; [lia|].
  rewrite (index_nonneg board i) by lia. rewrite Hrow. cbn [mbind option_bind].
  rewrite (index_nonneg row j) by lia. rewrite Hb.
  destruct b; [by apply IH|].
  unfold Game.set_true. rewrite (index_nonneg board i) by lia. rewrite Hrow.
  rewrite (index_nonneg row j) by lia. rewrite Hb.
  rewrite Hlen, Hrowlen, !Z2Nat.id by lia.
  rewrite (Z.mod_small i h) by lia. rewrite (Z.mod_small j w) by lia.
  apply IH.
  - split; cbn [Minesweeper.board Minesweeper.height Minesweeper.width].
    + by rewrite length_insert.
    + apply Forall_insert; [done|]. by rewrite length_insert.
  - intros c. rewrite elem_of_union, elem_of_singleton, Hplaced.
    unfold on_board. destruct (decide (c = (i, j))) as [->|Hne].
    + cbn [fst snd]. rewrite (board_at_set h w board row i j i j) by first [done|lia].
      rewrite decide_True by done. intuition lia.
    + split.
      * intros [[Hon Hat]|Heq]; [|done]. split; [done|].
        rewrite (board_at_set h w board row i j c.1 c.2) by first [done|lia].
        rewrite decide_False; [done|]. destruct c; cbn; congruence.
      * intros [Hon Hat]. left. split; [done|].
        rewrite (board_at_set h w board row i j c.1 c.2) in Hat by first [done|lia].
        rewrite decide_False in Hat; [done|]. destruct c; cbn; congruence.
Qed.

Lemma blank_laid (h w : Z) :
  Minesweeper.wf (Minesweeper.make h w (Game.blank h w)) ∧
  ∀ c, c ∈ (∅ : gset cell) ↔
       on_board h w c ∧
       Minesweeper.board_at (Minesweeper.make h w (Game.blank h w)) c.1 c.2 = true.
Proof.
  rewrite blank_replicate. split.
  - split; cbn [Minesweeper.board Minesweeper.height Minesweeper.width].
    + by rewrite length_replicate.
    + apply Forall_replicate. by rewrite length_replicate.
  - intros c. split; [set_solver|]. intros [[Hr Hc] Hat]. exfalso.
    unfold Minesweeper.board_at in Hat. cbn [Minesweeper.board] in Hat.
    rewrite lookup_replicate_2 in Hat by lia. cbn [mbind option_bind] in Hat.
    rewrite lookup_replicate_2 in Hat by lia. done.
Qed.

Lemma init_laid (h w n : Z) (draws : list (nat * nat)) :
  match Game.init h w n draws with
  | Game.Built g =>
      Game.height g = h ∧ Game.width g = w ∧ Game.mines_found g = ∅ ∧
      len (Game.mines g) = n ∧ Minesweeper.wf (Game.as_board g) ∧
      ∀ c, c ∈ Game.mines g ↔
           on_board h w c ∧ Minesweeper.board_at (Game.as_board g) c.1 c.2 = true
  | Game.Raised e => e = Game.ValueError
  | Game.Pending => True
  end.
Proof.
  unfold Game.init. destruct (blank_laid h w) as [Hwf Hempty]. by apply place_laid.
Qed.

(** X16: a board the constructor has built has the height and width asked
    for, [height] rows of [width] entries, exactly the number of mines asked
    for, all of them cells of the board; [self.mines] is the set of the
    cells whose entry is [True], which is the set [nearby_mines] counts in;
    no mine is found yet, so the game is won at once exactly when no mine
    was asked for. *)
Theorem init_builds_board (h w n : Z) (draws : list (nat * nat)) (g : Game.t) :
  Game.init h w n draws = Game.Built g →
  Game.height g = h ∧ Game.width g = w ∧
  Minesweeper.wf (Game.as_board g) ∧
  len (Game.mines g) = n ∧
  Minesweeper.mine_set (Game.as_board g) = Game.mines g ∧
  (∀ c, c ∈ Game.mines g → on_board h w c) ∧
  Game.mines_found g = ∅ ∧
  Game.won g = bool_decide (n = 0).
Proof.
  intros H. pose proof (init_laid h w n draws) as Hl. rewrite H in Hl.
  destruct Hl as (Hh & Hw & Hfound & Hn & Hwf & Hmines).
  split; [done|]. split; [done|]. split; [done|]. split; [done|]. split; [|split; [|split]].
  - apply set_eq. intros c. rewrite elem_of_mine_set, Hmines.
    unfold Game.as_board at 1 2. cbn [Minesweeper.height Minesweeper.width].
    by rewrite Hh, Hw.
  - intros c Hc. by apply Hmines in Hc as [? _].
  - done.
  - unfold Game.won. rewrite Hfound. apply bool_decide_ext.
    rewrite <- Hn. split.
    + intros <-. unfold len. by rewrite size_empty.
    + intros H0. symmetry. by apply len_empty_iff.
Qed.

Lemma init_builds_board_witness :
  Game.init 3 3 3 ex_draws = Game.Built ex_game ∧
  Game.height ex_game = 3 ∧ Game.width ex_game = 3 ∧
  Minesweeper.wf (Game.as_board ex_game) ∧
  len (Game.mines ex_game) = 3 ∧
  Minesweeper.mine_set (Game.as_board ex_game) = Game.mines ex_game ∧
  (∀ c, c ∈ Game.mines ex_game → on_board 3 3 c) ∧
  Game.mines_found ex_game = ∅ ∧
  Game.won ex_game = bool_decide (3 = 0).
Proof.
  assert (Game.init 3 3 3 ex_draws = Game.Built ex_game) as H by (vm_compute; reflexivity).
  split; [exact H|].
  apply (init_builds_board 3 3 3 ex_draws ex_game H).
Defined.




(** X18: [is_mine] uses the indices as they come.  On a field of [height]
    rows of [width] entries it answers for a cell of the board with the
    entry of that cell; a negative row or column down to [-height] or
    [-width] is counted from the far edge, so the answer is that of another
    cell of the board; any other index is an [IndexError]. *)
Theorem is_mine_indexing (g : Game.t) (c : cell) :
  Minesweeper.wf (Game.as_board g) →
  (on_board (Game.height g) (Game.width g) c →
   Game.is_mine g c = Some (Minesweeper.board_at (Game.as_board g) c.1 c.2) ∧
   (Game.is_mine g c = Some true ↔ c ∈ Minesweeper.mine_set (Game.as_board g))) ∧
  (- Game.height g ≤ c.1 < 0 →
   Game.is_mine g c = Game.is_mine g (Game.height g + c.1, c.2)) ∧
  (- Game.width g ≤ c.2 < 0 →
   Game.is_mine g c = Game.is_mine g (c.1, Game.width g + c.2)) ∧
  (c.1 < - Game.height g ∨ Game.height g ≤ c.1 ∨
   c.2 < - Game.width g ∨ Game.width g ≤ c.2 →
   Game.is_mine g c = None).
Proof.
  intros [Hlen Hrows].
  cbn [Game.as_board Minesweeper.board Minesweeper.height Minesweeper.width] in Hlen, Hrows.
  assert (∀ i row, Game.index (Game.board g) i = Some row →
                   length row = Z.to_nat (Game.width g)) as Hrow.
  { intros i row Hi. unfold Game.index in Hi.
    eapply Forall_forall in Hrows; [exact Hrows|].
    repeat case_decide; try discriminate; by eapply list_elem_of_lookup_2. }
  unfold Game.is_mine. split; [|split; [|split]].
  - intros [Hr Hc].
    assert (Game.index (Game.board g) c.1 ≫= (λ row, Game.index row c.2)
            = Some (Minesweeper.board_at (Game.as_board g) c.1 c.2)) as Heq.
    { destruct (board_at_wf (Game.as_board g) c) as (row & Hlook & Hat);
        [done|done|].
      cbn [Game.as_board Minesweeper.board] in Hlook.
      rewrite index_nonneg by lia. rewrite Hlook. cbn [mbind option_bind].
      rewrite index_nonneg by lia. exact Hat. }
    split; [exact Heq|]. rewrite Heq, elem_of_mine_set.
    cbn [Game.as_board Minesweeper.height Minesweeper.width]. unfold on_board.
    split; [intros E; inversion E; tauto|intros [_ ->]; done].
  - intros Hr. cbn [fst snd]. rewrite index_wrap by lia. do 2 f_equal. lia.
  - intros Hc. cbn [fst snd].
    destruct (Game.index (Game.board g) c.1) as [row|] eqn:E; [|done].
    cbn [mbind option_bind]. apply Hrow in E.
    rewrite index_wrap by lia. f_equal. lia.
  - intros Hout.
    destruct (Game.index (Game.board g) c.1) as [row|] eqn:E; [|done].
    cbn [mbind option_bind]. pose proof (Hrow _ _ E) as Hw.
    apply index_None.
    destruct (decide (c.1 < - Z.of_nat (length (Game.board g))
                      ∨ Z.of_nat (length (Game.board g)) ≤ c.1)) as [Hbad|Hok].
    + apply index_None in Hbad. congruence.
    + lia.
Qed.

Lemma is_mine_indexing_witness :
  Minesweeper.wf (Game.as_board ex_game) ∧
  (on_board (Game.height ex_game) (Game.width ex_game) (-1, 2) →
   Game.is_mine ex_game (-1, 2)
     = Some (Minesweeper.board_at (Game.as_board ex_game) (-1, 2).1 (-1, 2).2) ∧
   (Game.is_mine ex_game (-1, 2) = Some true
    ↔ (-1, 2) ∈ Minesweeper.mine_set (Game.as_board ex_game))) ∧
  (- Game.height ex_game ≤ (-1, 2).1 < 0 →
   Game.is_mine ex_game (-1, 2)
     = Game.is_mine ex_game (Game.height ex_game + (-1, 2).1, (-1, 2).2)) ∧
  (- Game.width ex_game ≤ (-1, 2).2 < 0 →
   Game.is_mine ex_game (-1, 2)
     = Game.is_mine ex_game ((-1, 2).1, Game.width ex_game + (-1, 2).2)) ∧
  (((-1, 2) : cell).1 < - Game.height ex_game ∨ Game.height ex_game ≤ ((-1, 2) : cell).1 ∨
   ((-1, 2) : cell).2 < - Game.width ex_game ∨ Game.width ex_game ≤ ((-1, 2) : cell).2 →
   Game.is_mine ex_game (-1, 2) = None).
Proof.
  assert (Minesweeper.wf (Game.as_board ex_game)) as Hwf.
  { split; [reflexivity|]. repeat constructor. }
  split; [exact Hwf|].
  apply (is_mine_indexing ex_game (-1, 2) Hwf).
Defined.

Example is_mine_wraps :
  Game.is_mine ex_game (-1, 2) = Some true ∧ Game.is_mine ex_game (2, 2) = Some true ∧
  Game.is_mine ex_game (3, 0) = None.
Proof. vm_compute. done. Qed.

(** * How many sentences resolution returns *)

Lemma length_candidates_row (i : nat) (a : Sentence.t) (l : list Sentence.t) :
  ∀ n0 : nat,
    (length (concat (imap (λ j b, candidate i a (n0 + j) b) l))
     + (if decide (n0 ≤ i < n0 + length l)%nat then 1 else 0)
     ≤ length l)%nat.
Proof.
  induction l as [|b l IH]; intros n0.
  - cbn. rewrite decide_False by lia. lia.
  - rewrite imap_cons. cbn [concat length]. rewrite length_app.
    specialize (IH (S n0)).
    assert (imap ((λ j b0, candidate i a (n0 + j) b0) ∘ S) l
            = imap (λ j b0, candidate i a (S n0 + j) b0) l) as Hshift.
    { apply imap_ext. intros j x _. cbn. f_equal. lia. }
    rewrite Hshift.
    assert (length (candidate i a (n0 + 0) b) ≤ if decide (i = n0) then 0 else 1)%nat
      as Hone.
    { unfold candidate. repeat case_decide; cbn [length]; lia. }
    repeat case_decide; lia.
Qed.

Lemma length_concat_imap {A B} (f : nat → A → list B) (m : nat) (l : list A) :
  (∀ i a, l !! i = Some a → length (f i a) ≤ m)%nat →
  (length (concat (imap f l)) ≤ length l * m)%nat.
Proof.
  revert f. induction l as [|a l IH]; intros f Hf; [cbn; lia|].
  rewrite imap_cons. cbn [concat length]. rewrite length_app.
  specialize (IH (f ∘ S)). pose proof (Hf 0%nat a eq_refl).
  assert (length (concat (imap (f ∘ S) l)) ≤ length l * m)%nat
    by (apply IH; intros i x Hi; apply (Hf (S i) x Hi)).
  lia.
Qed.

(** X19: from a list of [n] sentences [generate_new_knowledge] returns at
    most [n * (n - 1)] sentences; from an empty list or a list of one
    sentence it returns none. *)
Theorem generate_new_knowledge_at_most (self : t) :
  ∃ new_sentences,
    generate_new_knowledge self = Return new_sentences self ∧
    (length new_sentences
     ≤ length (knowledge self) * (length (knowledge self) - 1))%nat ∧
    ((length (knowledge self) ≤ 1)%nat → new_sentences = []).
Proof.
  exists (subset_rule (knowledge self)). split; [apply generate_new_knowledge_run|].
  assert (length (subset_rule (knowledge self))
          ≤ length (knowledge self) * (length (knowledge self) - 1))%nat as Hlen.
  { unfold subset_rule. apply length_concat_imap. intros i a Hi.
    apply lookup_lt_Some in Hi.
    pose proof (length_candidates_row i a (knowledge self) 0) as H.
    rewrite decide_True in H by lia. cbn [Nat.add] in H.
    change (λ j b, candidate i a (0 + j) b) with (λ j b, candidate i a j b) in H.
    lia. }
  split; [exact Hlen|]. intros Hsmall. apply length_zero_iff_nil. nia.
Qed.
